(** * HeterogeneousContainer: Storage.hpp and TypeMapping.hpp

    A shallow embedding of [Core::metaprogramming::type_table],
    [Core::Storage], [Core::Storage::ObjectPointer],
    [Core::HeterogeneousStorage], its [GenericObjectPointer] and
    [Core::TypedView], followed by the properties of the specification
    that were checked against them.

    Conventions.
    - A C++ type that can be a template argument is an element of an
      abstract type [Ty] with decidable equality ([std::is_same_v]);
      [obj T] is the Rocq type of the values of the C++ type [T].
    - A list node is named by the serial number of its allocation in its
      list; the past-the-end iterator of a list designates the header
      that lives inside the list object, so it is named by the address of
      that object.
    - A call has an [outcome]: it returns, throws, terminates the program
      (an exception leaving a [noexcept] function), is rejected by the
      compiler, or has undefined behaviour. *)

From stdpp Require Import base list strings.

(** ** Outcomes of calls *)

Inductive exception : Type :=
| runtime_error (what : string)
| bad_variant_access.

Inductive outcome (A : Type) : Type :=
| Returns (a : A)
| Throws (e : exception)
| Terminates
| IllFormed
| Undefined.

Arguments Returns {A} a.
Arguments Throws {A} e.
Arguments Terminates {A}.
Arguments IllFormed {A}.
Arguments Undefined {A}.

(** Sequencing: the first call that does not return decides the outcome. *)
#[global] Instance outcome_bind : MBind outcome := fun A B k c =>
  match c with
  | Returns a => k a
  | Throws e => Throws e
  | Terminates => Terminates
  | IllFormed => IllFormed
  | Undefined => Undefined
  end.

#[global] Instance outcome_ret : MRet outcome := @Returns.

(** [try { c } catch (const std::bad_variant_access&) { throw e; }] *)
Definition rethrow_bad_variant_access {A : Type} (e : exception) (c : outcome A)
  : outcome A :=
  match c with
  | Throws bad_variant_access => Throws e
  | _ => c
  end.

(** A function declared [noexcept]: an exception that leaves it calls
    [std::terminate]. *)
Definition noexcept {A : Type} (c : outcome A) : outcome A :=
  match c with
  | Throws _ => Terminates
  | _ => c
  end.

(** The message of both [std::runtime_error]s of Storage.hpp. *)
Definition not_stored : exception :=
  runtime_error "Type doesn't stored in this storage".

(** ** TypeMapping.hpp *)

Module TypeMapping.
Section type_table.
Context {Ty : Type} `{EqDecision Ty}.

(** [type_table_row<Index, T, Ts...>::index_of<U>()]: the row holds
    [T] at [Index]; the rows after it hold [Ts].  The last row
    ([Ts] empty) has no [next]: there the [else] branch is
    [throw "No type in table"], which in the constant expression that
    initialises [type_table::index_of] is a compile-time failure,
    [None] here.  [Index] is a [size_t]; it counts template arguments,
    so it is a [nat]. *)
Fixpoint row_index_of (Index : nat) (T : Ty) (Ts : list Ty) (U : Ty)
  : option nat :=
  match Ts with
  | [] => if decide (U = T) then Some Index else None
  | T' :: Ts' =>
      if decide (U = T) then Some Index
      else row_index_of (Index + 1) T' Ts' U
  end.

(** [row_indexer<Table, idx>::indexed_type]: the specialisation for
    [idx = 0] gives [Table::type]; the primary template goes to
    [Table::next] with [idx - 1], and the last row has no [next]. *)
Fixpoint row_indexer (T : Ty) (Ts : list Ty) (idx : nat) : option Ty :=
  match idx with
  | 0 => Some T
  | S idx' =>
      match Ts with
      | [] => None
      | T' :: Ts' => row_indexer T' Ts' idx'
      end
  end.

(** [type_table<Ts...>::size] *)
Definition size (Ts : list Ty) : nat := length Ts.

(** [type_table<Ts...>::index_of<T>], from [data = type_table_row<0, Ts...>];
    an empty pack has no first row. *)
Definition index_of (Ts : list Ty) (U : Ty) : option nat :=
  match Ts with
  | [] => None
  | T :: Ts' => row_index_of 0 T Ts' U
  end.

(** [type_table<Ts...>::type_of<idx>] *)
Definition type_of (Ts : list Ty) (idx : nat) : option Ty :=
  match Ts with
  | [] => None
  | T :: Ts' => row_indexer T Ts' idx
  end.

(** [FirstT = type_of<0>] and [LastT = type_of<size - 1>]; for the only
    pack with [size = 0] there is no first row whatever the index. *)
Definition FirstT (Ts : list Ty) : option Ty := type_of Ts 0.
Definition LastT (Ts : list Ty) : option Ty := type_of Ts (size Ts - 1).

End type_table.
End TypeMapping.

(** ** Storage.hpp: list iterators *)

(** Where a [std::list] iterator points: nowhere (a value-initialised
    iterator), at the node with a given allocation serial, or at the
    header of the list object at a given address (past the end). *)
Inductive position : Type :=
| singular
| at_node (n : nat)
| past_the_end (owner : nat).

#[global] Instance position_eq_dec : EqDecision position.
Proof. solve_decision. Defined.

(** The four iterator types of a list.  They are distinct C++ types that
    hold the same node pointer; a reverse iterator holds its [base()]. *)
Inductive iterator_kind : Type :=
| k_iterator
| k_const_iterator
| k_reverse_iterator
| k_const_reverse_iterator.

#[global] Instance iterator_kind_eq_dec : EqDecision iterator_kind.
Proof. solve_decision. Defined.

Record iter (k : iterator_kind) : Type := Iter { base : position }.

Arguments Iter {k} base.
Arguments base {k} _.

#[global] Instance iter_eq_dec k : EqDecision (iter k).
Proof. solve_decision. Defined.

(** What a function declared [decltype(auto)] returns: a value together
    with its type. *)
Definition any_iter : Type := sigT iter.

Definition pack {k : iterator_kind} (c : outcome (iter k)) : outcome any_iter :=
  match c with
  | Returns i => Returns (existT k i)
  | Throws e => Throws e
  | Terminates => Terminates
  | IllFormed => IllFormed
  | Undefined => Undefined
  end.

(** ** Storage.hpp: [Storage<T>] and [Storage<T>::ObjectPointer] *)

Module Storage.

(** A [Storage<T>] is a [std::pmr::list<T>]: the object lives at address
    [this]; [nodes] are its linked nodes from front to back, each with
    its allocation serial; [allocated] counts the nodes allocated so
    far, so it is the serial of the next one. *)
Record Storage (T : Type) : Type := mk {
  this : nat;
  nodes : list (nat * T);
  allocated : nat
}.

Arguments mk {T} this nodes allocated.
Arguments this {T} _.
Arguments nodes {T} _.
Arguments allocated {T} _.

(** [struct Storage<T>::ObjectPointer]: [it] is the list iterator on the
    object, [cont] the pointer on the owning storage ([None] is
    [nullptr]).  The type depends on [T] only through its name. *)
Record ObjectPointer (T : Type) : Type := mkptr {
  it : iter k_iterator;
  cont : option nat
}.

Arguments mkptr {T} it cont.
Arguments it {T} _.
Arguments cont {T} _.

Section storage.
Context {T : Type}.

(** [Storage() = default] for an object placed at address [a]. *)
Definition new (a : nat) : Storage T := mk a [] 0.

Definition begin_position (s : Storage T) : position :=
  match nodes s with
  | [] => past_the_end (this s)
  | (n, _) :: _ => at_node n
  end.

Definition end_position (s : Storage T) : position := past_the_end (this s).

(** [begin], [end], [cbegin], [cend] of the list. *)
Definition begin (s : Storage T) : iter k_iterator := Iter (begin_position s).
Definition end_ (s : Storage T) : iter k_iterator := Iter (end_position s).
Definition cbegin (s : Storage T) : iter k_const_iterator := Iter (begin_position s).
Definition cend (s : Storage T) : iter k_const_iterator := Iter (end_position s).

(** [rbegin] is the reverse iterator on [end()], [rend] the one on
    [begin()]. *)
Definition rbegin (s : Storage T) : iter k_reverse_iterator := Iter (end_position s).
Definition rend (s : Storage T) : iter k_reverse_iterator := Iter (begin_position s).
Definition crbegin (s : Storage T) : iter k_const_reverse_iterator :=
  Iter (end_position s).
Definition crend (s : Storage T) : iter k_const_reverse_iterator :=
  Iter (begin_position s).

Definition size (s : Storage T) : nat := length (nodes s).
Definition empty (s : Storage T) : bool := bool_decide (size s = 0).

(** [ObjectPointer() = default] *)
Definition null : ObjectPointer T := mkptr (Iter singular) None.

(** [operator==(ObjectPointer other) const { return it == other.it; }] *)
Definition operator_eq (p other : ObjectPointer T) : bool :=
  bool_decide (it p = it other).

(** [operator bool() const { return cont && it != cont->end(); }]: the
    past-the-end iterator of the storage at address [c] is
    [past_the_end c]. *)
Definition operator_bool (p : ObjectPointer T) : bool :=
  match cont p with
  | None => false
  | Some c => bool_decide (base (it p) <> past_the_end c)
  end.

(** [GetStorage() const&] *)
Definition GetStorage (p : ObjectPointer T) : option nat := cont p.

(** [emplace]: [container::emplace(end(), std::move(val))] links a new
    node before the header, that is after every node of the list; the
    result is [ObjectPointer(this, <iterator on the new node>)]. *)
Definition emplace (val : T) (s : Storage T) : Storage T * ObjectPointer T :=
  let n := allocated s in
  (mk (this s) (nodes s ++ [(n, val)]) (S n),
   mkptr (Iter (at_node n)) (Some (this s))).

(** [std::list::erase(pos)] on the node list: the node [n] is unlinked,
    the others keep their order.  [None] when [n] is not a node of the
    list. *)
Fixpoint unlink (n : nat) (l : list (nat * T)) : option (list (nat * T)) :=
  match l with
  | [] => None
  | (m, v) :: l' =>
      if decide (n = m) then Some l'
      else match unlink n l' with
           | Some r => Some ((m, v) :: r)
           | None => None
           end
  end.

(** [erase(ObjectPointer&& ptr)]: [container::erase(ptr.it)], then
    [ptr = ObjectPointer(this, end())].  The caller's pointer is passed
    by reference, so its new value is part of the result.  Erasing
    through an iterator that is not on a node of this list is undefined
    behaviour.  Serials are counted list by list: they tell the nodes of
    one list apart, and an iterator is taken to be on this list when its
    serial is the serial of a linked node; iterators obtained from
    another list are not told apart from these. *)
Definition erase (ptr : ObjectPointer T) (s : Storage T)
  : outcome (Storage T * ObjectPointer T) :=
  match base (it ptr) with
  | at_node n =>
      match unlink n (nodes s) with
      | Some l =>
          Returns (mk (this s) l (allocated s), mkptr (end_ s) (Some (this s)))
      | None => Undefined
      end
  | _ => Undefined
  end.

(** [*it]: the object of the node the iterator is on. *)
Fixpoint value_of (n : nat) (l : list (nat * T)) : option T :=
  match l with
  | [] => None
  | (m, v) :: l' => if decide (n = m) then Some v else value_of n l'
  end.

Definition dereference (s : Storage T) (p : position) : outcome T :=
  match p with
  | at_node n =>
      match value_of n (nodes s) with
      | Some v => Returns v
      | None => Undefined
      end
  | _ => Undefined
  end.

(** [++it]: the node linked after the one the iterator is on, the header
    [e] after the last node. *)
Fixpoint successor (e : position) (n : nat) (l : list (nat * T)) : option position :=
  match l with
  | [] => None
  | (m, _) :: l' =>
      if decide (n = m) then
        Some (match l' with [] => e | (m', _) :: _ => at_node m' end)
      else successor e n l'
  end.

Definition increment (s : Storage T) (p : position) : outcome position :=
  match p with
  | at_node n =>
      match successor (end_position s) n (nodes s) with
      | Some p' => Returns p'
      | None => Undefined
      end
  | _ => Undefined
  end.

(** [for (auto it = first; it != last; ++it)] with body [use( *it )], the loop of a
    range-based [for], collecting the objects it visits.  [fuel] bounds
    the number of iterations; [None] is fuel exhausted. *)
Fixpoint for_each (fuel : nat) (s : Storage T) (first last : position)
  : option (outcome (list T)) :=
  if decide (first = last) then Some (Returns [])
  else
    match fuel with
    | 0 => None
    | S fuel' =>
        match dereference s first, increment s first with
        | Returns v, Returns next =>
            match for_each fuel' s next last with
            | Some (Returns vs) => Some (Returns (v :: vs))
            | r => r
            end
        | Returns _, _ => Some Undefined
        | _, _ => Some Undefined
        end
    end.

(** [for (auto&& val : storage)] *)
Definition range_for (fuel : nat) (s : Storage T) : option (outcome (list T)) :=
  for_each fuel s (base (begin s)) (base (end_ s)).

(** [clear()] of the list: every node is destroyed. *)
Definition clear (s : Storage T) : Storage T := mk (this s) [] (allocated s).

(** [Storage(const Storage& other) : container(other) {}] for an object
    placed at address [a]: the list copy constructor allocates one new
    node for each element of [other], front to back. *)
Definition copy (a : nat) (other : Storage T) : Storage T :=
  mk a (imap (fun i kv => (i, kv.2)) (nodes other)) (length (nodes other)).

(** [ObjectPointer::operator*]: [it.operator*()], the object of the node
    in the storage that holds it. *)
Definition operator_star (p : ObjectPointer T) (s : Storage T) : outcome T :=
  dereference s (base (it p)).

(** The serial of the node linked before node [n]. *)
Fixpoint before (n : nat) (l : list (nat * T)) : option nat :=
  match l with
  | [] => None
  | (m, _) :: l' =>
      match l' with
      | [] => None
      | (m', _) :: _ => if decide (n = m') then Some m else before n l'
      end
  end.

(** [--it]: from the header of this list to its last node, from a node
    to the node linked before it.  Decrementing [begin()], or an
    iterator that is not on this list, is undefined behaviour. *)
Definition decrement (s : Storage T) (p : position) : outcome position :=
  match p with
  | at_node n =>
      match before n (nodes s) with
      | Some m => Returns (at_node m)
      | None => Undefined
      end
  | past_the_end o =>
      if decide (o = this s) then
        match last (nodes s) with
        | Some (m, _) => Returns (at_node m)
        | None => Undefined
        end
      else Undefined
  | singular => Undefined
  end.

(** [for (auto it = first; it != last; ++it)] over reverse iterators,
    given by their [base()]: [*it] is the object before the base, [++it]
    decrements the base. *)
Fixpoint reverse_for_each (fuel : nat) (s : Storage T) (first last : position)
  : option (outcome (list T)) :=
  if decide (first = last) then Some (Returns [])
  else
    match fuel with
    | 0 => None
    | S fuel' =>
        match decrement s first with
        | Returns prev =>
            match dereference s prev with
            | Returns v =>
                match reverse_for_each fuel' s prev last with
                | Some (Returns vs) => Some (Returns (v :: vs))
                | r => r
                end
            | _ => Some Undefined
            end
        | _ => Some Undefined
        end
    end.

(** The loop from [rbegin()] to [rend()]. *)
Definition reverse_range_for (fuel : nat) (s : Storage T)
  : option (outcome (list T)) :=
  reverse_for_each fuel s (base (rbegin s)) (base (rend s)).

End storage.
End Storage.

(** ** [std::variant] over a pack of types *)

(** A [std::variant<F<Ts>...>]: it holds a value of the alternative for
    one type of the pack, or it is valueless by exception. *)
Inductive variant {Ty : Type} (F : Ty -> Type) : Type :=
| valueless
| holding (T : Ty) (x : F T).

Arguments valueless {Ty F}.
Arguments holding {Ty F} T x.

Section variant.
Context {Ty : Type} `{EqDecision Ty} {F : Ty -> Type}.

Definition valueless_by_exception (v : variant F) : bool :=
  match v with
  | valueless => true
  | holding _ _ => false
  end.

(** [std::get<F<T>>(v)]: the held value when the alternative for [T] is
    the active one, [std::bad_variant_access] otherwise. *)
Definition get (T : Ty) (v : variant F) : outcome (F T) :=
  match v with
  | valueless => Throws bad_variant_access
  | holding U x =>
      match decide (U = T) with
      | left e => Returns (eq_rect U F x T e)
      | right _ => Throws bad_variant_access
      end
  end.

(** [std::visit(f, v)] *)
Definition visit {R : Type} (f : forall T, F T -> R) (v : variant F) : outcome R :=
  match v with
  | valueless => Throws bad_variant_access
  | holding T x => Returns (f T x)
  end.

End variant.

(** ** Storage.hpp: [HeterogeneousStorage<Ts...>::GenericObjectPointer] *)

Module GenericObjectPointer.

(** [std::variant<ObjPtr<Ts>...> ptr] *)
Record GenericObjectPointer {Ty : Type} (obj : Ty -> Type) : Type := mk {
  ptr : variant (fun T => Storage.ObjectPointer (obj T))
}.

Arguments mk {Ty obj} ptr.
Arguments ptr {Ty obj} _.

Section generic.
Context {Ty : Type} `{EqDecision Ty} (obj : Ty -> Type) (Ts : list Ty).

(** [GenericObjectPointer(ObjPtrT ptr) : ptr(ptr) {}] with
    [ObjPtrT = ObjPtr<T>]: the variant takes the alternative of that
    type; there is none when [T] is not in the pack. *)
Definition construct (T : Ty) (p : Storage.ObjectPointer (obj T))
  : outcome (GenericObjectPointer obj) :=
  if decide (T ∈ Ts) then Returns (mk (holding T p)) else IllFormed.

(** [operator ObjPtrT() const] with [ObjPtrT = ObjPtr<T>]:
    [std::get<ObjPtrT>(ptr)], a [std::bad_variant_access] being replaced
    by a [std::runtime_error]. *)
Definition cast (T : Ty) (g : GenericObjectPointer obj)
  : outcome (Storage.ObjectPointer (obj T)) :=
  if decide (T ∈ Ts) then rethrow_bad_variant_access not_stored (get T (ptr g))
  else IllFormed.

(** How an expression uses a non-static member function: it calls it,
    or it only names it.  Only the call is an operand of [&&]. *)
Inductive member_use : Type := member_called | member_named.

Definition is_operand (u : member_use) : bool :=
  match u with
  | member_called => true
  | member_named => false
  end.

(** What a call of [std::visit] passes first: the visitor, as the
    function requires, or the variant. *)
Inductive visit_first_argument : Type := visitor_first | variant_first.

Definition visit_accepts (f : visit_first_argument) : bool :=
  match f with
  | visitor_first => true
  | variant_first => false
  end.

(** [operator bool() const { return ptr.valueless_by_exception &&
    std::visit(ptr, <lambda>); }]: the left operand names the member
    function [valueless_by_exception] without calling it, and the call
    of [std::visit] passes the variant first and the lambda second.
    Neither operand is a well-formed expression, so the member is
    rejected when it is instantiated, that is wherever a generic
    pointer is converted to [bool].  Were both operands accepted, [&&]
    would evaluate the right one only when the left one is true. *)
Definition operator_bool (g : GenericObjectPointer obj) : outcome bool :=
  if is_operand member_named && visit_accepts variant_first
  then
    if valueless_by_exception (ptr g)
    then visit (fun T p => Storage.operator_bool p) (ptr g)
    else Returns false
  else IllFormed.

(** [GenericObjectPointer() = default]: the variant value-initialises its
    first alternative; an empty pack has none. *)
Definition default : outcome (GenericObjectPointer obj) :=
  match Ts with
  | [] => IllFormed
  | T :: _ => Returns (mk (holding T Storage.null))
  end.

(** [operator==(const GenericObjectPointer& other) const noexcept
    { return other.ptr == ptr; }]: variants are equal when they hold the
    same alternative and the held values compare equal, or when both are
    valueless. *)
Definition operator_eq (g other : GenericObjectPointer obj) : bool :=
  match ptr other, ptr g with
  | valueless, valueless => true
  | holding T p, holding U q =>
      match decide (U = T) with
      | left e =>
          Storage.operator_eq p
            (eq_rect U (fun X => Storage.ObjectPointer (obj X)) q T e)
      | right _ => false
      end
  | _, _ => false
  end.

End generic.
End GenericObjectPointer.

(** ** Storage.hpp: [HeterogeneousStorage<Ts...>] *)

Module HeterogeneousStorage.

(** [std::array<VariadicContainer, TypeIndexer::size> containers] with
    [VariadicContainer = std::variant<StorageBacket<Ts>...>]. *)
Record HeterogeneousStorage {Ty : Type} (obj : Ty -> Type) : Type := mk {
  containers : list (variant (fun T => Storage.Storage (obj T)))
}.

Arguments mk {Ty obj} containers.
Arguments containers {Ty obj} _.

Section heterogeneous.
Context {Ty : Type} `{EqDecision Ty} (obj : Ty -> Type) (Ts : list Ty).

Abbreviation HS := (HeterogeneousStorage obj).
Abbreviation ObjPtr := (fun T => Storage.ObjectPointer (obj T)).

(** The value of [containers = { StorageBacket<Ts>()... }] for an object
    placed at address [a], for a pack the class can be instantiated
    with (see [default_constructor]): element [i] holds the empty
    storage of the [i]-th type of the pack, at address [a + i]. *)
Definition new (a : nat) : HS :=
  mk (imap (fun i T => holding T (Storage.new (a + i))) Ts).

(** [Get<ObjT>() const&]: [idx] is [TypeIndexer::index_of<ObjT>], a
    constant expression; [std::get<StorageBacket<ObjT>>(containers[idx])],
    a [std::bad_variant_access] being replaced by a
    [std::runtime_error]. *)
Definition Get (ObjT : Ty) (hs : HS) : outcome (Storage.Storage (obj ObjT)) :=
  match TypeMapping.index_of Ts ObjT with
  | None => IllFormed
  | Some idx =>
      match containers hs !! idx with
      | None => Undefined
      | Some c => rethrow_bad_variant_access not_stored (get ObjT c)
      end
  end.

(** [Get<ObjT>()&] returns a reference into [containers]: what a caller
    does to the storage it names happens in place. *)
Definition set (ObjT : Ty) (s : Storage.Storage (obj ObjT)) (hs : HS) : HS :=
  match TypeMapping.index_of Ts ObjT with
  | None => hs
  | Some idx => mk (<[idx := holding ObjT s]> (containers hs))
  end.

(** [emplace<ObjT>(args...)]: [Get<ObjT>().emplace(args...)]; [val] is
    the object the arguments construct. *)
Definition emplace (ObjT : Ty) (val : obj ObjT) (hs : HS)
  : outcome (HS * ObjPtr ObjT) :=
  s ← Get ObjT hs;
  let '(s', p) := Storage.emplace val s in
  Returns (set ObjT s' hs, p).

(** [erase<ObjT>(ObjPtr<ObjT>&& ptr)]: [Get<ObjT>().erase(ptr)]. *)
Definition erase (ObjT : Ty) (ptr : ObjPtr ObjT) (hs : HS)
  : outcome (HS * ObjPtr ObjT) :=
  s ← Get ObjT hs;
  r ← Storage.erase ptr s;
  let '(s', p) := r in
  Returns (set ObjT s' hs, p).

(** How the argument of a call is passed. *)
Inductive value_category : Type := lvalue | rvalue.

(** The two overloads named [erase]. *)
Inductive erase_overload : Type :=
| erase_ObjPtr
| erase_GenericObjectPointer.

(** Whether an overload of [erase] can be called as [erase(x)] with [x]
    of type [GenericObjectPointer]: the template one cannot, its [ObjT]
    only occurs in [typename StorageBacket<ObjT>::ObjectPointer] and is
    not written at the call; the other one takes a
    [GenericObjectPointer&&], which binds to an rvalue only. *)
Definition viable_for_generic (c : value_category) (o : erase_overload) : bool :=
  match o, c with
  | erase_ObjPtr, _ => false
  | erase_GenericObjectPointer, rvalue => true
  | erase_GenericObjectPointer, lvalue => false
  end.

(** [erase(GenericObjectPointer&& ptr) { erase(ptr); }]: the body is one
    call of [erase] on the parameter, a named variable and so an lvalue.
    It visits no alternative of [ptr.ptr], converts to no [ObjPtr] and
    names no sub-pool.  The template overload is not viable for it; were
    the overload for [GenericObjectPointer] viable, the call would be a
    call of this very function, one more level down; as it is not, the
    call is rejected when the member is instantiated.  [fuel] bounds the
    nested calls; [None] is fuel exhausted. *)
Fixpoint erase_generic (fuel : nat)
  (ptr : GenericObjectPointer.GenericObjectPointer obj) (hs : HS)
  : option (outcome (HS * GenericObjectPointer.GenericObjectPointer obj)) :=
  match fuel with
  | 0 => None
  | S fuel' =>
      if viable_for_generic lvalue erase_GenericObjectPointer
      then erase_generic fuel' ptr hs
      else Some IllFormed
  end.

(** The begin/end family: each is [Get<ObjT>()] followed by the member of
    the same name of the sub-pool. *)
Definition begin (ObjT : Ty) (hs : HS) : outcome (iter k_iterator) :=
  noexcept (s ← Get ObjT hs; Returns (Storage.begin s)).
Definition end_ (ObjT : Ty) (hs : HS) : outcome (iter k_iterator) :=
  noexcept (s ← Get ObjT hs; Returns (Storage.end_ s)).
Definition cbegin (ObjT : Ty) (hs : HS) : outcome (iter k_const_iterator) :=
  noexcept (s ← Get ObjT hs; Returns (Storage.cbegin s)).
Definition cend (ObjT : Ty) (hs : HS) : outcome (iter k_const_iterator) :=
  noexcept (s ← Get ObjT hs; Returns (Storage.cend s)).
Definition rbegin (ObjT : Ty) (hs : HS) : outcome (iter k_reverse_iterator) :=
  noexcept (s ← Get ObjT hs; Returns (Storage.rbegin s)).
Definition rend (ObjT : Ty) (hs : HS) : outcome (iter k_reverse_iterator) :=
  noexcept (s ← Get ObjT hs; Returns (Storage.rend s)).
Definition crbegin (ObjT : Ty) (hs : HS)
  : outcome (iter k_const_reverse_iterator) :=
  noexcept (s ← Get ObjT hs; Returns (Storage.crbegin s)).
Definition crend (ObjT : Ty) (hs : HS)
  : outcome (iter k_const_reverse_iterator) :=
  noexcept (s ← Get ObjT hs; Returns (Storage.crend s)).

(** [size() const noexcept]: [sizes = { Get<Ts>().size()... }], evaluated
    from the first type of the pack to the last, then summed.  The sizes
    count objects that are in memory together, so the sum is below the
    range of [size_t]. *)
Definition size (hs : HS) : outcome nat :=
  noexcept
    (foldr (fun T rest =>
              s ← Get T hs; n ← rest; Returns (Storage.size s + n))
           (Returns 0) Ts).

(** [empty() const noexcept { return size() == 0; }] *)
Definition empty (hs : HS) : outcome bool :=
  noexcept (n ← size hs; Returns (bool_decide (n = 0))).

(** [HeterogeneousStorage() = default].  The class is instantiated for
    a pack that is not empty and names no type twice: [type_table]'s
    first row [type_table_row<0, Ts...>] needs a first type, and the
    initialiser [{ StorageBacket<Ts>()... }] of the variants, like
    [std::get<StorageBacket<ObjT>>], needs each alternative to occur
    once.  For such a pack the object is [new]; for any other pack
    there is no object. *)
Definition default_constructor (a : nat) : outcome HS :=
  if decide (Ts <> [] /\ NoDup Ts) then Returns (new a) else IllFormed.

(** [HeterogeneousStorage(const HeterogeneousStorage&) = default] for an
    object placed at address [a]: the array is copied element by
    element, a variant copies the alternative it holds, and a sub-pool is
    copied by the copy constructor of [Storage]. *)
Definition copy (a : nat) (hs : HS) : HS :=
  mk (imap (fun i c =>
              match c with
              | valueless => valueless
              | holding T s => holding T (Storage.copy (a + i) s)
              end) (containers hs)).

End heterogeneous.
End HeterogeneousStorage.

(** ** Storage.hpp: [TypedView<ObjT, HStorageT>] *)

Module TypedView.

(** [HStorageT& storage]: the view holds a reference; a member reads the
    heterogeneous storage as it is at the call. *)
Record TypedView {Ty : Type} (obj : Ty -> Type) (ObjT : Ty) : Type := mk {
  storage : HeterogeneousStorage.HeterogeneousStorage obj
}.

Arguments mk {Ty obj} ObjT storage.
Arguments storage {Ty obj ObjT} _.

Section view.
Context {Ty : Type} `{EqDecision Ty} (obj : Ty -> Type) (Ts : list Ty).
Context {ObjT : Ty}.

Abbreviation View := (TypedView obj ObjT).

Definition begin (v : View) : outcome (iter k_iterator) :=
  noexcept (HeterogeneousStorage.begin obj Ts ObjT (storage v)).
Definition end_ (v : View) : outcome (iter k_iterator) :=
  noexcept (HeterogeneousStorage.end_ obj Ts ObjT (storage v)).
Definition cbegin (v : View) : outcome (iter k_const_iterator) :=
  noexcept (HeterogeneousStorage.cbegin obj Ts ObjT (storage v)).
Definition cend (v : View) : outcome (iter k_const_iterator) :=
  noexcept (HeterogeneousStorage.cend obj Ts ObjT (storage v)).
Definition rbegin (v : View) : outcome (iter k_reverse_iterator) :=
  noexcept (HeterogeneousStorage.rbegin obj Ts ObjT (storage v)).
Definition rend (v : View) : outcome (iter k_reverse_iterator) :=
  noexcept (HeterogeneousStorage.rend obj Ts ObjT (storage v)).
Definition crbegin (v : View) : outcome (iter k_const_reverse_iterator) :=
  noexcept (HeterogeneousStorage.crbegin obj Ts ObjT (storage v)).
(** [crend() const noexcept { return storage.rend<ObjT>(); }] *)
Definition crend (v : View) : outcome (iter k_reverse_iterator) :=
  noexcept (HeterogeneousStorage.rend obj Ts ObjT (storage v)).

End view.
End TypedView.

(** ** Programs over one [Storage<T>] *)

(** A caller of one storage: it emplaces objects and erases through the
    [ObjectPointer]s it received.  [Erase k] passes the pointer that the
    [k]-th [emplace] call returned (counting from 0); the caller keeps
    the pointers in [held], one variable for each [emplace] call, and
    [erase] takes its argument by reference, so it overwrites the
    variable. *)
Inductive op (T : Type) : Type :=
| Emplace (val : T)
| Erase (k : nat).

Arguments Emplace {T} val.
Arguments Erase {T} k.

Record client (T : Type) : Type := mkclient {
  pool : Storage.Storage T;
  held : list (Storage.ObjectPointer T)
}.

Arguments mkclient {T} pool held.
Arguments pool {T} _.
Arguments held {T} _.

Section programs.
Context {T : Type}.

Definition start (a : nat) : client T := mkclient (Storage.new a) [].

Definition step (o : op T) (c : client T) : outcome (client T) :=
  match o with
  | Emplace val =>
      let '(s, p) := Storage.emplace val (pool c) in
      Returns (mkclient s (held c ++ [p]))
  | Erase k =>
      match held c !! k with
      | None => IllFormed
      | Some p =>
          r ← Storage.erase p (pool c);
          let '(s, p') := r in
          Returns (mkclient s (<[k := p']> (held c)))
      end
  end.

Fixpoint run (ops : list (op T)) (c : client T) : outcome (client T) :=
  match ops with
  | [] => Returns c
  | o :: ops' => c' ← step o c; run ops' c'
  end.

(** The objects of the [emplace] calls, in call order, and the numbers of
    the pointers passed to [erase]. *)
Definition emplaced (ops : list (op T)) : list T :=
  omap (fun o => match o with Emplace val => Some val | Erase _ => None end) ops.

Definition erased (ops : list (op T)) : list nat :=
  omap (fun o => match o with Emplace _ => None | Erase k => Some k end) ops.

Definition emplace_calls (ops : list (op T)) : nat := length (emplaced ops).
Definition erase_calls (ops : list (op T)) : nat := length (erased ops).

(** An [erase] is performed with a valid pointer: one that an earlier
    [emplace] of the program returned and that no earlier [erase]
    consumed.  [done] is the part of the program already performed. *)
Definition precondition (done : list (op T)) (o : op T) : bool :=
  match o with
  | Emplace _ => true
  | Erase k => bool_decide (k < emplace_calls done /\ k ∉ erased done)
  end.

Fixpoint valid_after (done ops : list (op T)) : bool :=
  match ops with
  | [] => true
  | o :: ops' => precondition done o && valid_after (done ++ [o]) ops'
  end.

Definition valid (ops : list (op T)) : bool := valid_after [] ops.

(** Following the words of the specification: the still-live objects, in
    the order their [emplace] calls occurred, erased ones skipped. *)
Definition live_in_emplace_order (ops : list (op T)) : list T :=
  (filter (fun kv => kv.1 ∉ erased ops) (imap pair (emplaced ops))).*2.

End programs.

(** ** Invariants and a concrete instance *)

(** A call of a [const] member function: the object it is called on is
    the same after the call. *)
Definition const_call {S A : Type} (f : S -> outcome A) (self : S)
  : outcome A * S :=
  (f self, self).

(** The array of sub-pools is aligned with the pack: element [i] holds
    the alternative of the [i]-th type. *)
Definition aligned {Ty : Type} {obj : Ty -> Type} (Ts : list Ty)
  (hs : HeterogeneousStorage.HeterogeneousStorage obj) : Prop :=
  length (HeterogeneousStorage.containers hs) = length Ts /\
  forall i T, Ts !! i = Some T ->
    exists s, HeterogeneousStorage.containers hs !! i = Some (holding T s).

(** The nodes of a list are distinct. *)
Definition distinct_nodes {T : Type} (s : Storage.Storage T) : Prop :=
  NoDup (Storage.nodes s).*1.

(** The instance of the scenarios: a heterogeneous storage over [int] and
    [std::string]. *)
Inductive example_type : Type := ex_int | ex_string.

#[global] Instance example_type_eq_dec : EqDecision example_type.
Proof. solve_decision. Defined.

Definition example_obj (T : example_type) : Type :=
  match T with
  | ex_int => Z
  | ex_string => string
  end.

Definition example_pack : list example_type := [ex_int; ex_string].

(** The pointer [emplace] returns for node [n] of the storage at [a],
    and the pointer [erase] leaves in the caller's variable. *)
Definition node_pointer {T : Type} (a n : nat) : Storage.ObjectPointer T :=
  Storage.mkptr (Iter (at_node n)) (Some a).

Definition end_pointer {T : Type} (a : nat) : Storage.ObjectPointer T :=
  Storage.mkptr (Iter (past_the_end a)) (Some a).

(** The caller's state after a valid program on a fresh storage at
    address [a], in closed form: the [k]-th [emplace] allocated node
    [k]; the list holds the nodes not erased; variable [k] holds the
    pointer on node [k] until it is passed to [erase]. *)
Definition state_after {T : Type} (a : nat) (ops : list (op T)) : client T :=
  mkclient
    (Storage.mk a
       (filter (fun kv => kv.1 ∉ erased ops) (imap pair (emplaced ops)))
       (emplace_calls ops))
    ((fun k => if decide (k ∈ erased ops) then end_pointer a
               else node_pointer a k) <$> seq 0 (emplace_calls ops)).

(** The nodes of a list are distinct and were all allocated by it. *)
Definition well_formed {T : Type} (s : Storage.Storage T) : Prop :=
  NoDup (Storage.nodes s).*1 /\
  forall n, n ∈ (Storage.nodes s).*1 -> n < Storage.allocated s.

(** Node [n] is linked in the list. *)
Definition linked {T : Type} (n : nat) (s : Storage.Storage T) : Prop :=
  n ∈ (Storage.nodes s).*1.

(** A storage of [int] at address 0 after [emplace(1)] and [emplace(2)],
    and a heterogeneous storage over [int] alone. *)
Definition example_storage : Storage.Storage Z :=
  (Storage.emplace 2%Z (Storage.emplace 1%Z (Storage.new 0)).1).1.

Definition example_int_only : list example_type := [ex_int].

(** * Properties *)

(** ** The type table *)

Section type_table_facts.
Context {Ty : Type} `{EqDecision Ty}.

Lemma row_indexer_lookup (T : Ty) Ts idx :
  TypeMapping.row_indexer T Ts idx = (T :: Ts) !! idx.
Proof.
  revert T idx. induction Ts as [|T' Ts IH]; intros T [|idx]; simpl; auto.
Qed.

Lemma type_of_lookup (Ts : list Ty) idx : TypeMapping.type_of Ts idx = Ts !! idx.
Proof. destruct Ts; [done | apply row_indexer_lookup]. Qed.

(** The search returns the first row that holds [U]. *)
Lemma row_index_of_Some Index (T : Ty) Ts U i :
  TypeMapping.row_index_of Index T Ts U = Some i ->
  exists j, i = Index + j /\ (T :: Ts) !! j = Some U /\
            forall j', j' < j -> (T :: Ts) !! j' <> Some U.
Proof.
  revert Index T. induction Ts as [|T' Ts IH]; intros Index T; simpl.
  - destruct (decide (U = T)) as [->|]; [|done].
    intros [= <-]. exists 0. split; [lia|]. split; [done|]. lia.
  - destruct (decide (U = T)) as [->|Hne].
    + intros [= <-]. exists 0. split; [lia|]. split; [done|]. lia.
    + intros Hi. destruct (IH _ _ Hi) as (j & -> & Hj & Hfirst).
      exists (S j). split; [lia|]. split; [done|].
      intros [|j'] Hlt; simpl; [congruence|]. apply Hfirst. lia.
Qed.

Lemma row_index_of_elem Index (T : Ty) Ts U :
  U ∈ T :: Ts -> is_Some (TypeMapping.row_index_of Index T Ts U).
Proof.
  revert Index T. induction Ts as [|T' Ts IH]; intros Index T HU; simpl.
  - destruct (decide (U = T)); [by eexists|].
    apply list_elem_of_singleton in HU. done.
  - destruct (decide (U = T)); [by eexists|].
    apply IH. by apply elem_of_cons in HU as [?|?].
Qed.

Lemma index_of_Some (Ts : list Ty) U i :
  TypeMapping.index_of Ts U = Some i ->
  Ts !! i = Some U /\ forall j, j < i -> Ts !! j <> Some U.
Proof.
  destruct Ts as [|T Ts]; [done|]. simpl. intros Hi.
  destruct (row_index_of_Some _ _ _ _ _ Hi) as (j & -> & Hj & Hfirst).
  done.
Qed.

Lemma index_of_elem (Ts : list Ty) U :
  U ∈ Ts -> is_Some (TypeMapping.index_of Ts U).
Proof.
  destruct Ts as [|T Ts]; [by intros ?%elem_of_nil|].
  apply row_index_of_elem.
Qed.

(** Two types with one index are one type. *)
Lemma index_of_inj (Ts : list Ty) T U i :
  TypeMapping.index_of Ts T = Some i -> TypeMapping.index_of Ts U = Some i ->
  T = U.
Proof.
  intros [HT _]%index_of_Some [HU _]%index_of_Some. congruence.
Qed.

(** C7. For a table over pairwise-distinct types the mapping between
    types and indices is a bijection onto the range from 0 to [size]:
    every registered type [T] has an index below [size], and [type_of]
    at that index is [T]; every index [i] below [size] has a type, and
    [index_of] of that type is [i]. *)
Theorem type_table_bijection (Ts : list Ty) :
  NoDup Ts ->
  (forall T, T ∈ Ts ->
     exists i, TypeMapping.index_of Ts T = Some i /\
               i < TypeMapping.size Ts /\
               TypeMapping.type_of Ts i = Some T) /\
  (forall i, i < TypeMapping.size Ts ->
     exists T, TypeMapping.type_of Ts i = Some T /\ T ∈ Ts /\
               TypeMapping.index_of Ts T = Some i).
Proof.
  intros Hnd. split.
  - intros T HT. destruct (index_of_elem _ _ HT) as [i Hi].
    exists i. destruct (index_of_Some _ _ _ Hi) as [Hl _].
    split; [done|]. split; [by eapply lookup_lt_Some|].
    by rewrite type_of_lookup.
  - intros i Hi. destruct (lookup_lt_is_Some_2 Ts i Hi) as [T HT].
    exists T. rewrite type_of_lookup. split; [done|].
    assert (T ∈ Ts) as Hin by (by eapply list_elem_of_lookup_2).
    split; [done|].
    destruct (index_of_elem _ _ Hin) as [j Hj].
    destruct (index_of_Some _ _ _ Hj) as [Hl _].
    by rewrite (NoDup_lookup _ _ _ _ Hnd HT Hl).
Qed.

End type_table_facts.

Lemma example_pack_NoDup : NoDup example_pack.
Proof. unfold example_pack. apply NoDup_cons. split; [|apply NoDup_singleton].
  intros Hin%list_elem_of_singleton. discriminate. Qed.

Lemma type_table_bijection_witness :
  NoDup example_pack /\
  (forall T, T ∈ example_pack ->
     exists i, TypeMapping.index_of example_pack T = Some i /\
               i < TypeMapping.size example_pack /\
               TypeMapping.type_of example_pack i = Some T) /\
  (forall i, i < TypeMapping.size example_pack ->
     exists T, TypeMapping.type_of example_pack i = Some T /\ T ∈ example_pack /\
               TypeMapping.index_of example_pack T = Some i).
Proof.
  split; [exact example_pack_NoDup|].
  exact (type_table_bijection example_pack example_pack_NoDup).
Defined.

(** ** Object pointers *)

Section pointer_facts.
Context {T : Type}.

(** C10. Two object pointers compare equal exactly when their stored
    iterators are equal; the owning storage they record plays no part,
    so pointers with one iterator and different owners compare equal. *)
Theorem ObjectPointer_eq_ignores_owner :
  (forall p q : Storage.ObjectPointer T,
     Storage.operator_eq p q = true <-> Storage.it p = Storage.it q) /\
  (forall (i : iter k_iterator) (c1 c2 : option nat),
     Storage.operator_eq (T := T) (Storage.mkptr i c1) (Storage.mkptr i c2) = true) /\
  Storage.operator_eq (T := T)
    (Storage.mkptr (Iter (at_node 0)) (Some 1))
    (Storage.mkptr (Iter (at_node 0)) (Some 2)) = true.
Proof.
  split; [|split].
  - intros p q. unfold Storage.operator_eq. apply bool_decide_eq_true.
  - intros i c1 c2. unfold Storage.operator_eq. simpl. by apply bool_decide_eq_true.
  - reflexivity.
Qed.

End pointer_facts.

(** ** Generic object pointers *)

Section generic_facts.
Context {Ty : Type} `{EqDecision Ty} (obj : Ty -> Type) (Ts : list Ty).

Lemma get_holding (F : Ty -> Type) (T : Ty) (x : F T) :
  get T (holding T x) = Returns x.
Proof.
  simpl. destruct (decide (T = T)) as [e|]; [|done].
  by rewrite (proof_irrel e eq_refl).
Qed.

Lemma get_holding_ne (F : Ty -> Type) (T U : Ty) (x : F T) :
  U <> T -> get U (holding T x) = Throws bad_variant_access.
Proof.
  intros Hne. simpl. destruct (decide (T = U)) as [e|]; [|done]. by subst.
Qed.

(** C2. Constructing a generic pointer from the pointer [h] of a
    registered type [T] and casting it back to [T]'s pointer type
    returns [h]: the result compares equal to [h]. *)
Theorem construct_cast_roundtrip (T : Ty) (h : Storage.ObjectPointer (obj T)) :
  T ∈ Ts ->
  exists g,
    GenericObjectPointer.construct obj Ts T h = Returns g /\
    GenericObjectPointer.cast obj Ts T g = Returns h /\
    forall h', GenericObjectPointer.cast obj Ts T g = Returns h' ->
               Storage.operator_eq h' h = true.
Proof.
  intros HT. exists (GenericObjectPointer.mk (holding T h)).
  unfold GenericObjectPointer.construct, GenericObjectPointer.cast.
  rewrite !decide_True by done. simpl GenericObjectPointer.ptr.
  rewrite get_holding. simpl. split; [done|]. split; [done|].
  intros h' [= <-]. unfold Storage.operator_eq. by apply bool_decide_eq_true.
Qed.

(** C3. A generic pointer constructed from the pointer of a registered
    type [T], cast to the pointer type of a registered type [U] other
    than [T], throws the [std::runtime_error] of the cast, and the
    generic pointer is the same after the call. *)
Theorem cast_type_mismatch (T U : Ty) (h : Storage.ObjectPointer (obj T)) :
  T ∈ Ts -> U ∈ Ts -> U <> T ->
  exists g,
    GenericObjectPointer.construct obj Ts T h = Returns g /\
    const_call (GenericObjectPointer.cast obj Ts U) g = (Throws not_stored, g).
Proof.
  intros HT HU Hne. exists (GenericObjectPointer.mk (holding T h)).
  unfold GenericObjectPointer.construct, GenericObjectPointer.cast, const_call.
  rewrite !decide_True by done. simpl GenericObjectPointer.ptr.
  by rewrite get_holding_ne.
Qed.

(** The validity check of a generic pointer is rejected, whatever the
    generic pointer holds. *)
Lemma operator_bool_rejected (g : GenericObjectPointer.GenericObjectPointer obj) :
  GenericObjectPointer.operator_bool obj g = IllFormed.
Proof. reflexivity. Qed.

End generic_facts.

Lemma example_int_registered : ex_int ∈ example_pack.
Proof. unfold example_pack. apply elem_of_cons. by left. Qed.

Lemma example_string_registered : ex_string ∈ example_pack.
Proof. unfold example_pack. apply elem_of_cons. right. apply elem_of_cons. by left. Qed.

Lemma construct_cast_roundtrip_witness :
  ex_int ∈ example_pack /\
  exists g,
    GenericObjectPointer.construct example_obj example_pack ex_int
      (Storage.mkptr (Iter (at_node 0)) (Some 0)) = Returns g /\
    GenericObjectPointer.cast example_obj example_pack ex_int g
      = Returns (Storage.mkptr (Iter (at_node 0)) (Some 0)) /\
    forall h', GenericObjectPointer.cast example_obj example_pack ex_int g = Returns h' ->
               Storage.operator_eq h' (Storage.mkptr (Iter (at_node 0)) (Some 0)) = true.
Proof.
  split; [exact example_int_registered|].
  exact (construct_cast_roundtrip example_obj example_pack ex_int
           (Storage.mkptr (Iter (at_node 0)) (Some 0)) example_int_registered).
Defined.

Lemma cast_type_mismatch_witness :
  ex_string ∈ example_pack /\ ex_int ∈ example_pack /\ ex_int <> ex_string /\
  exists g,
    GenericObjectPointer.construct example_obj example_pack ex_string
      (Storage.mkptr (Iter (at_node 0)) (Some 1)) = Returns g /\
    const_call (GenericObjectPointer.cast example_obj example_pack ex_int) g
      = (Throws not_stored, g).
Proof.
  split; [exact example_string_registered|].
  split; [exact example_int_registered|].
  split; [discriminate|].
  apply (cast_type_mismatch example_obj example_pack ex_string ex_int).
  - exact example_string_registered.
  - exact example_int_registered.
  - discriminate.
Defined.

(** C1. The validity check of a generic pointer does not give the
    validity of the pointer it holds: for the pointer that [emplace]
    returns, which is valid, the conversion to [bool] of the generic
    pointer constructed from it is rejected by the compiler and returns
    nothing; and no generic pointer converts to true. *)
Theorem generic_operator_bool_of_valid_pointer :
  (let '(_, h) := Storage.emplace (T := example_obj ex_int) 7%Z (Storage.new 0) in
   Storage.operator_bool h = true /\
   exists g,
     GenericObjectPointer.construct example_obj example_pack ex_int h = Returns g /\
     GenericObjectPointer.operator_bool example_obj g = IllFormed) /\
  forall g, GenericObjectPointer.operator_bool example_obj g <> Returns true.
Proof.
  split; [|by intros g; rewrite operator_bool_rejected].
  simpl. split; [reflexivity|].
  exists (GenericObjectPointer.mk
            (holding ex_int (Storage.mkptr (Iter (at_node 0)) (Some 0)))).
  split; [|reflexivity].
  unfold GenericObjectPointer.construct.
  by rewrite (decide_True _ _ example_int_registered).
Qed.

(** ** One storage: emplace, erase and iteration *)

Section storage_facts.
Context {T : Type}.

Lemma emplace_size (val : T) (s : Storage.Storage T) :
  Storage.size (Storage.emplace val s).1 = S (Storage.size s).
Proof. unfold Storage.size. simpl. rewrite length_app. simpl. lia. Qed.

Lemma unlink_length n (l r : list (nat * T)) :
  Storage.unlink n l = Some r -> S (length r) = length l.
Proof.
  revert r. induction l as [|[m v] l IH]; intros r; simpl; [done|].
  destruct (decide (n = m)); [by intros [= ->]|].
  destruct (Storage.unlink n l) as [r'|]; [|done].
  intros [= <-]. simpl. by rewrite (IH r').
Qed.

Lemma erase_size (p p' : Storage.ObjectPointer T) (s s' : Storage.Storage T) :
  Storage.erase p s = Returns (s', p') -> S (Storage.size s') = Storage.size s.
Proof.
  unfold Storage.erase, Storage.size.
  destruct (base (Storage.it p)); try done.
  destruct (Storage.unlink n (Storage.nodes s)) as [l|] eqn:Hl; [|done].
  intros [= <- _]. simpl. by eapply unlink_length.
Qed.

Lemma filter_all (P : nat * T -> Prop) `{forall x, Decision (P x)} (l : list (nat * T)) :
  (forall x, x ∈ l -> P x) -> filter P l = l.
Proof.
  induction l as [|x l IH]; intros HP; [done|].
  rewrite filter_cons_True by (apply HP; left).
  f_equal. apply IH. intros y Hy. apply HP. by right.
Qed.

(** Unlinking a node of a list of distinct nodes removes that node and
    keeps the order of the others. *)
Lemma unlink_filter n (l : list (nat * T)) :
  NoDup l.*1 -> n ∈ l.*1 ->
  Storage.unlink n l = Some (filter (fun kv => kv.1 <> n) l).
Proof.
  induction l as [|[m v] l IH]; simpl; intros Hnd Hin.
  - by apply elem_of_nil in Hin.
  - apply NoDup_cons in Hnd as [Hm Hnd].
    destruct (decide (n = m)) as [->|Hne].
    + rewrite filter_cons_False by (simpl; auto).
      rewrite filter_all; [done|].
      intros [k w] Hk. simpl. intros ->. apply Hm.
      by apply (list_elem_of_fmap_2 fst) in Hk.
    + apply elem_of_cons in Hin as [?|Hin]; [done|].
      rewrite (IH Hnd Hin). by rewrite filter_cons_True by (simpl; auto).
Qed.

Lemma value_of_app n v (pre suf : list (nat * T)) :
  n ∉ pre.*1 -> Storage.value_of n (pre ++ (n, v) :: suf) = Some v.
Proof.
  induction pre as [|[m w] pre IH]; simpl; intros Hn.
  - by rewrite decide_True.
  - apply not_elem_of_cons in Hn as [Hne Hn]. rewrite decide_False by done. auto.
Qed.

Lemma successor_app e n v (pre suf : list (nat * T)) :
  n ∉ pre.*1 ->
  Storage.successor e n (pre ++ (n, v) :: suf)
  = Some (match suf with [] => e | (m, _) :: _ => at_node m end).
Proof.
  induction pre as [|[m w] pre IH]; simpl; intros Hn.
  - by rewrite decide_True.
  - apply not_elem_of_cons in Hn as [Hne Hn]. rewrite decide_False by done. auto.
Qed.

(** The loop from a node to the end visits the node and those linked
    after it, in list order. *)
Lemma for_each_suffix (s : Storage.Storage T) (pre suf : list (nat * T)) fuel :
  Storage.nodes s = pre ++ suf -> distinct_nodes s -> length suf <= fuel ->
  Storage.for_each fuel s
    (match suf with
     | [] => past_the_end (Storage.this s)
     | (m, _) :: _ => at_node m
     end)
    (past_the_end (Storage.this s))
  = Some (Returns suf.*2).
Proof.
  unfold distinct_nodes.
  revert pre fuel. induction suf as [|[n v] suf IH]; intros pre fuel Hs Hnd Hfuel.
  - destruct fuel; cbn [Storage.for_each]; by rewrite decide_True.
  - destruct fuel as [|fuel]; [simpl in Hfuel; lia|].
    cbn [Storage.for_each]. rewrite decide_False by done.
    assert (n ∉ pre.*1) as Hn.
    { rewrite Hs, fmap_app in Hnd. apply NoDup_app in Hnd as (_ & Hdisj & _).
      intros Hin. apply (Hdisj _ Hin). simpl. left. }
    unfold Storage.dereference, Storage.increment, Storage.end_position.
    rewrite Hs, (value_of_app _ _ _ _ Hn), (successor_app _ _ _ _ _ Hn).
    rewrite (IH (pre ++ [(n, v)]) fuel); [done| |done|simpl in Hfuel; lia].
    by rewrite <-app_assoc.
Qed.

Lemma range_for_nodes (s : Storage.Storage T) fuel :
  distinct_nodes s -> Storage.size s <= fuel ->
  Storage.range_for fuel s = Some (Returns (Storage.nodes s).*2).
Proof.
  intros Hnd Hfuel. unfold Storage.range_for, Storage.begin, Storage.end_. simpl.
  unfold Storage.begin_position, Storage.end_position.
  by apply (for_each_suffix s []).
Qed.

(** *** Programs *)

Lemma run_app (ops1 ops2 : list (op T)) (c : client T) :
  run (ops1 ++ ops2) c = (c' ← run ops1 c; run ops2 c').
Proof.
  revert c. induction ops1 as [|o ops1 IH]; intros c; simpl; [done|].
  destruct (step o c); simpl; auto.
Qed.

Lemma valid_after_snoc (done ops : list (op T)) o :
  valid_after done (ops ++ [o])
  = valid_after done ops && precondition (done ++ ops) o.
Proof.
  revert done. induction ops as [|o' ops IH]; intros done; simpl.
  - rewrite app_nil_r. by rewrite andb_true_r.
  - rewrite IH, <-app_assoc. simpl. by rewrite andb_assoc.
Qed.

Lemma valid_snoc (ops : list (op T)) o :
  valid (ops ++ [o]) = true -> valid ops = true /\ precondition ops o = true.
Proof. unfold valid. rewrite valid_after_snoc. by intros ?%andb_true_iff. Qed.

Lemma emplaced_snoc_Emplace (ops : list (op T)) val :
  emplaced (ops ++ [Emplace val]) = emplaced ops ++ [val].
Proof. unfold emplaced. by rewrite omap_app. Qed.

Lemma emplaced_snoc_Erase (ops : list (op T)) k :
  emplaced (ops ++ [Erase k]) = emplaced ops.
Proof. unfold emplaced. rewrite omap_app. simpl. by rewrite app_nil_r. Qed.

Lemma erased_snoc_Emplace (ops : list (op T)) val :
  erased (ops ++ [Emplace val]) = erased ops.
Proof. unfold erased. rewrite omap_app. simpl. by rewrite app_nil_r. Qed.

Lemma erased_snoc_Erase (ops : list (op T)) k :
  erased (ops ++ [Erase k]) = erased ops ++ [k].
Proof. unfold erased. by rewrite omap_app. Qed.

(** A valid program erases through pointers it received, each once. *)
Lemma valid_erased (ops : list (op T)) :
  valid ops = true ->
  NoDup (erased ops) /\ forall k, k ∈ erased ops -> k < emplace_calls ops.
Proof.
  induction ops as [|o ops IH] using rev_ind.
  - intros _. split; [constructor|]. by intros k ?%elem_of_nil.
  - intros [Hv Hpre]%valid_snoc. destruct (IH Hv) as [Hnd Hlt].
    destruct o as [val|k]; unfold emplace_calls in *.
    + rewrite erased_snoc_Emplace, emplaced_snoc_Emplace, length_app. simpl.
      split; [done|]. intros k Hk. specialize (Hlt k Hk). lia.
    + rewrite erased_snoc_Erase, emplaced_snoc_Erase.
      simpl in Hpre. apply bool_decide_eq_true in Hpre as [Hk Hnew].
      split.
      * apply NoDup_app. split; [done|]. split; [|apply NoDup_singleton].
        intros j Hj ->%list_elem_of_singleton. done.
      * intros j [Hj| ->%list_elem_of_singleton]%elem_of_app; auto.
Qed.

Lemma state_after_distinct a (ops : list (op T)) :
  distinct_nodes (pool (state_after a ops)).
Proof.
  unfold distinct_nodes. simpl.
  eapply sublist_NoDup; [|apply fmap_sublist, sublist_filter].
  rewrite fmap_imap.
  rewrite (imap_ext _ (fun j _ => j)) by done.
  rewrite (imap_seq_0 _ (fun j => j)), list_fmap_id. apply NoDup_seq.
Qed.

(** One more operation of a valid program takes the closed form of the
    state to the closed form of the longer program. *)
Lemma step_state_after a (ops : list (op T)) o :
  valid ops = true -> precondition ops o = true ->
  step o (state_after a ops) = Returns (state_after a (ops ++ [o])).
Proof.
  intros Hv Hpre. destruct (valid_erased ops Hv) as [_ Hlt].
  destruct o as [val|k]; unfold state_after, step; simpl.
  - f_equal. unfold emplace_calls.
    rewrite erased_snoc_Emplace, emplaced_snoc_Emplace.
    rewrite imap_app, filter_app, length_app. simpl.
    rewrite Nat.add_0_r, Nat.add_1_r.
    rewrite filter_cons_True, filter_nil.
    2:{ simpl. intros Hin%Hlt. unfold emplace_calls in Hin. lia. }
    f_equal. rewrite seq_S, fmap_app. simpl. f_equal.
    rewrite decide_False; [done|].
    intros Hin%Hlt. unfold emplace_calls in Hin. lia.
  - apply bool_decide_eq_true in Hpre as [Hk Hnew].
    rewrite list_lookup_fmap, lookup_seq_lt by done. simpl.
    rewrite decide_False by done.
    unfold Storage.erase. simpl.
    destruct (lookup_lt_is_Some_2 (emplaced ops) k Hk) as [v Hv'].
    rewrite unlink_filter.
    2:{ apply (state_after_distinct a ops). }
    2:{ apply (list_elem_of_fmap_2 fst _ (k, v)).
        apply list_elem_of_filter. split; [done|].
        apply elem_of_lookup_imap. eauto. }
    simpl. unfold Storage.end_, Storage.end_position. simpl.
    fold (end_pointer (T := T) a).
    unfold emplace_calls. rewrite erased_snoc_Erase, emplaced_snoc_Erase.
    f_equal. f_equal.
    + f_equal. rewrite list_filter_filter. apply list_filter_iff.
      intros [j w]. simpl. rewrite not_elem_of_app, list_elem_of_singleton.
      tauto.
    + apply list_eq. intros i.
      rewrite list_lookup_insert, !list_lookup_fmap, length_fmap, length_seq.
      destruct (decide (k = i /\ k < length (emplaced ops))) as [[<- _]|Hne].
      * rewrite lookup_seq_lt by done. simpl.
        rewrite decide_True; [done|]. apply elem_of_app. right. by left.
      * destruct (seq 0 (length (emplaced ops)) !! i) as [j|] eqn:Hj; [|done].
        apply lookup_seq in Hj as [-> Hi]. simpl. f_equal.
        destruct (decide (i ∈ erased ops)) as [Hin|Hout].
        -- rewrite decide_True; [done|]. apply elem_of_app. by left.
        -- rewrite decide_False; [done|].
           intros [?| ->%list_elem_of_singleton]%elem_of_app; [done|].
           apply Hne. done.
Qed.

(** The validity check of the code agrees with the precondition: in the
    state a valid program leaves, the pointer in variable [k] converts
    to true exactly when no erase has consumed it. *)
Lemma held_operator_bool a (ops : list (op T)) k p :
  held (state_after a ops) !! k = Some p ->
  Storage.operator_bool p = true <-> k ∉ erased ops.
Proof.
  simpl. rewrite list_lookup_fmap.
  destruct (seq 0 (emplace_calls ops) !! k) as [j|] eqn:Hj; [|done].
  apply lookup_seq in Hj as [-> _]. simpl. intros [= <-].
  destruct (decide (k ∈ erased ops)); unfold Storage.operator_bool; simpl.
  - case_bool_decide; naive_solver.
  - naive_solver.
Qed.

(** A valid program on a fresh storage runs to the closed form. *)
Lemma run_valid a (ops : list (op T)) :
  valid ops = true -> run ops (start a) = Returns (state_after a ops).
Proof.
  induction ops as [|o ops IH] using rev_ind; [done|].
  intros [Hv Hpre]%valid_snoc.
  rewrite run_app, (IH Hv). simpl.
  rewrite (step_state_after a ops o Hv Hpre). done.
Qed.

Lemma state_after_size a (ops : list (op T)) :
  valid ops = true ->
  Storage.size (pool (state_after a ops)) + erase_calls ops = emplace_calls ops.
Proof.
  induction ops as [|o ops IH] using rev_ind; [done|].
  intros [Hv Hpre]%valid_snoc. specialize (IH Hv).
  pose proof (step_state_after a ops o Hv Hpre) as Hstep.
  destruct o as [val|k]; unfold emplace_calls, erase_calls in *.
  - rewrite erased_snoc_Emplace, emplaced_snoc_Emplace, length_app. simpl.
    simpl in Hstep. injection Hstep as <-.
    pose proof (emplace_size val (pool (state_after a ops))) as Hsz.
    simpl in Hsz. unfold Storage.size in *. simpl in *.
    rewrite length_app in *. simpl in *. lia.
  - rewrite erased_snoc_Erase, emplaced_snoc_Erase, length_app. simpl.
    unfold step in Hstep.
    destruct (held (state_after a ops) !! k) as [p|]; [|done].
    destruct (Storage.erase p (pool (state_after a ops))) as [[s' p']| | | |] eqn:He;
      try done.
    apply erase_size in He. simpl in Hstep. injection Hstep as <-.
    simpl. lia.
Qed.

(** C5. On a fresh storage, a program of emplace and erase calls in which
    every erase is performed with a valid pointer runs to the end, and
    then [size()] is the number of emplace calls minus the number of
    erase calls; each emplace increases [size()] by one and each erase
    that is performed decreases it by one. *)
Theorem size_counts_operations (a : nat) (ops : list (op T)) :
  valid ops = true ->
  (exists c, run ops (start a) = Returns c /\
             erase_calls ops <= emplace_calls ops /\
             Storage.size (pool c) = emplace_calls ops - erase_calls ops) /\
  (forall (val : T) (s : Storage.Storage T),
     Storage.size (Storage.emplace val s).1 = S (Storage.size s)) /\
  (forall (p p' : Storage.ObjectPointer T) s s',
     Storage.erase p s = Returns (s', p') -> S (Storage.size s') = Storage.size s).
Proof.
  intros Hv. split; [|split].
  - exists (state_after a ops). split; [by apply run_valid|].
    pose proof (state_after_size a ops Hv). lia.
  - apply emplace_size.
  - apply erase_size.
Qed.

(** The loop over the storage a valid program leaves visits the live
    objects in the order of their emplace calls. *)
Lemma range_for_state_after a (ops : list (op T)) fuel :
  Storage.size (pool (state_after a ops)) <= fuel ->
  Storage.range_for fuel (pool (state_after a ops))
  = Some (Returns (live_in_emplace_order ops)).
Proof.
  intros Hfuel. rewrite range_for_nodes; [done| |done].
  apply state_after_distinct.
Qed.

End storage_facts.

Lemma size_counts_operations_witness :
  valid [Emplace 1%Z; Emplace 2%Z; Erase 0; Emplace 3%Z] = true /\
  (exists c, run [Emplace 1%Z; Emplace 2%Z; Erase 0; Emplace 3%Z] (start 0) = Returns c /\
             erase_calls [Emplace 1%Z; Emplace 2%Z; Erase 0; Emplace 3%Z]
             <= emplace_calls [Emplace 1%Z; Emplace 2%Z; Erase 0; Emplace 3%Z] /\
             Storage.size (pool c)
             = emplace_calls [Emplace 1%Z; Emplace 2%Z; Erase 0; Emplace 3%Z]
               - erase_calls [Emplace 1%Z; Emplace 2%Z; Erase 0; Emplace 3%Z]).
Proof.
  split; [reflexivity|].
  exact (proj1 (size_counts_operations 0
                  [Emplace 1%Z; Emplace 2%Z; Erase 0; Emplace 3%Z] eq_refl)).
Defined.

(** C6. On a fresh storage, after a program of emplace and erase calls
    in which every erase is performed with a valid pointer, the loop
    from [begin()] to [end()] yields exactly the objects still live, in
    the order of their emplace calls; after emplacing 1, 2, 3 and erasing
    through the pointer on 2 it yields 1 then 3, and [size()] is 2. *)
Theorem iteration_in_emplace_order (T : Type) (a : nat) (ops : list (op T)) :
  valid ops = true ->
  (exists c, run ops (start a) = Returns c /\
     forall fuel, Storage.size (pool c) <= fuel ->
       Storage.range_for fuel (pool c) = Some (Returns (live_in_emplace_order ops))) /\
  (exists c, run [Emplace 1%Z; Emplace 2%Z; Emplace 3%Z; Erase 1] (start a) = Returns c /\
     Storage.range_for 2 (pool c) = Some (Returns [1%Z; 3%Z]) /\
     Storage.size (pool c) = 2).
Proof.
  intros Hv. split.
  - exists (state_after a ops). split; [by apply run_valid|].
    intros fuel Hfuel. by apply range_for_state_after.
  - exists (state_after a [Emplace 1%Z; Emplace 2%Z; Emplace 3%Z; Erase 1]).
    split; [by apply run_valid|]. split; [|reflexivity].
    by rewrite range_for_state_after.
Qed.

Lemma iteration_in_emplace_order_witness :
  valid [Emplace 1%Z; Emplace 2%Z; Emplace 3%Z; Erase 1] = true /\
  exists c, run [Emplace 1%Z; Emplace 2%Z; Emplace 3%Z; Erase 1] (start 0) = Returns c /\
    forall fuel, Storage.size (pool c) <= fuel ->
      Storage.range_for fuel (pool c)
      = Some (Returns (live_in_emplace_order
                         [Emplace 1%Z; Emplace 2%Z; Emplace 3%Z; Erase 1])).
Proof.
  split; [reflexivity|].
  exact (proj1 (iteration_in_emplace_order Z 0
                  [Emplace 1%Z; Emplace 2%Z; Emplace 3%Z; Erase 1] eq_refl)).
Defined.

(** ** The heterogeneous storage *)

Section heterogeneous_facts.
Context {Ty : Type} `{EqDecision Ty} (obj : Ty -> Type) (Ts : list Ty).

Abbreviation HS := (HeterogeneousStorage.HeterogeneousStorage obj).

(** In an aligned storage [Get] of a registered type returns its
    sub-pool. *)
Lemma Get_aligned (hs : HS) (A : Ty) :
  aligned Ts hs -> A ∈ Ts ->
  exists i s, TypeMapping.index_of Ts A = Some i /\
              HeterogeneousStorage.containers hs !! i = Some (holding A s) /\
              HeterogeneousStorage.Get obj Ts A hs = Returns s.
Proof.
  intros [_ Hal] HA. destruct (index_of_elem _ _ HA) as [i Hi].
  destruct (index_of_Some _ _ _ Hi) as [Hl _].
  destruct (Hal _ _ Hl) as [s Hs]. exists i, s.
  split; [done|]. split; [done|].
  unfold HeterogeneousStorage.Get. rewrite Hi, Hs.
  by rewrite get_holding.
Qed.

(** Writing the sub-pool of [A] leaves [Get] of another type as it was. *)
Lemma Get_set_ne (hs : HS) (A B : Ty) (s : Storage.Storage (obj A)) :
  A <> B ->
  HeterogeneousStorage.Get obj Ts B (HeterogeneousStorage.set obj Ts A s hs)
  = HeterogeneousStorage.Get obj Ts B hs.
Proof.
  intros Hne. unfold HeterogeneousStorage.Get, HeterogeneousStorage.set.
  destruct (TypeMapping.index_of Ts B) as [j|] eqn:Hj; [|done].
  destruct (TypeMapping.index_of Ts A) as [i|] eqn:Hi; [|done].
  simpl. rewrite list_lookup_insert_ne; [done|].
  intros ->. apply Hne. by eapply index_of_inj.
Qed.

Lemma set_aligned (hs : HS) (A : Ty) (s : Storage.Storage (obj A)) :
  aligned Ts hs -> aligned Ts (HeterogeneousStorage.set obj Ts A s hs).
Proof.
  intros [Hlen Hal]. unfold HeterogeneousStorage.set.
  destruct (TypeMapping.index_of Ts A) as [i|] eqn:Hi; [|done].
  destruct (index_of_Some _ _ _ Hi) as [Hl _].
  split; simpl; [by rewrite length_insert|].
  intros j U HU. destruct (decide (i = j)) as [<-|Hne].
  - assert (U = A) as -> by congruence. exists s.
    apply list_lookup_insert_eq. rewrite Hlen. by eapply lookup_lt_Some.
  - rewrite list_lookup_insert_ne by done. by apply Hal.
Qed.

Lemma new_aligned (a : nat) : aligned Ts (HeterogeneousStorage.new obj Ts a).
Proof.
  split; simpl; [by rewrite length_imap|].
  intros i U HU. rewrite list_lookup_imap, HU. simpl. eauto.
Qed.

Lemma unlink_is_Some {T : Type} n (l : list (nat * T)) :
  n ∈ l.*1 -> is_Some (Storage.unlink n l).
Proof.
  induction l as [|[m v] l IH]; simpl; intros Hin.
  - by apply elem_of_nil in Hin.
  - destruct (decide (n = m)); [by eexists|].
    apply elem_of_cons in Hin as [?|Hin]; [done|].
    destruct (IH Hin) as [r ->]. by eexists.
Qed.

(** C8. In a heterogeneous storage over a pack that holds the distinct
    types [A] and [B], an emplace of an object of type [A] and an erase
    through a pointer of type [A] leave the sub-pool of [B] as it was:
    [Get<B>()] names the same storage value, hence the same size,
    contents and iteration order.  The emplace always returns, and so
    does an erase through a pointer on a node of the sub-pool of [A]. *)
Theorem sub_pools_isolated (A B : Ty) (hs : HS) :
  aligned Ts hs -> A ∈ Ts -> B ∈ Ts -> A <> B ->
  exists sA sB,
    HeterogeneousStorage.Get obj Ts A hs = Returns sA /\
    HeterogeneousStorage.Get obj Ts B hs = Returns sB /\
    (forall val, exists hs' p,
       HeterogeneousStorage.emplace obj Ts A val hs = Returns (hs', p) /\
       HeterogeneousStorage.Get obj Ts B hs' = Returns sB) /\
    (forall ptr n, base (Storage.it ptr) = at_node n -> n ∈ (Storage.nodes sA).*1 ->
       exists hs' p, HeterogeneousStorage.erase obj Ts A ptr hs = Returns (hs', p)) /\
    (forall ptr hs' p,
       HeterogeneousStorage.erase obj Ts A ptr hs = Returns (hs', p) ->
       HeterogeneousStorage.Get obj Ts B hs' = Returns sB).
Proof.
  intros Hal HA HB Hne.
  destruct (Get_aligned hs A Hal HA) as (i & sA & Hi & Hci & HgA).
  destruct (Get_aligned hs B Hal HB) as (j & sB & Hj & Hcj & HgB).
  exists sA, sB. split; [done|]. split; [done|]. split; [|split].
  - intros val. unfold HeterogeneousStorage.emplace. rewrite HgA. simpl.
    eexists _, _. split; [done|]. by rewrite Get_set_ne.
  - intros ptr n Hptr Hn. unfold HeterogeneousStorage.erase. rewrite HgA. simpl.
    unfold Storage.erase. rewrite Hptr.
    destruct (unlink_is_Some n _ Hn) as [l ->]. simpl. eauto.
  - intros ptr hs' p. unfold HeterogeneousStorage.erase. rewrite HgA. simpl.
    destruct (Storage.erase ptr sA) as [[s' p']| | | |]; simpl; try done.
    intros [= <- <-]. by rewrite Get_set_ne.
Qed.

End heterogeneous_facts.

Lemma sub_pools_isolated_witness :
  aligned example_pack (HeterogeneousStorage.new example_obj example_pack 0) /\
  ex_int ∈ example_pack /\ ex_string ∈ example_pack /\ ex_int <> ex_string /\
  exists sA sB,
    HeterogeneousStorage.Get example_obj example_pack ex_int
      (HeterogeneousStorage.new example_obj example_pack 0) = Returns sA /\
    HeterogeneousStorage.Get example_obj example_pack ex_string
      (HeterogeneousStorage.new example_obj example_pack 0) = Returns sB /\
    (forall val, exists hs' p,
       HeterogeneousStorage.emplace example_obj example_pack ex_int val
         (HeterogeneousStorage.new example_obj example_pack 0) = Returns (hs', p) /\
       HeterogeneousStorage.Get example_obj example_pack ex_string hs' = Returns sB) /\
    (forall ptr n, base (Storage.it ptr) = at_node n -> n ∈ (Storage.nodes sA).*1 ->
       exists hs' p,
         HeterogeneousStorage.erase example_obj example_pack ex_int ptr
           (HeterogeneousStorage.new example_obj example_pack 0) = Returns (hs', p)) /\
    (forall ptr hs' p,
       HeterogeneousStorage.erase example_obj example_pack ex_int ptr
         (HeterogeneousStorage.new example_obj example_pack 0) = Returns (hs', p) ->
       HeterogeneousStorage.Get example_obj example_pack ex_string hs' = Returns sB).
Proof.
  split; [apply new_aligned|].
  split; [exact example_int_registered|].
  split; [exact example_string_registered|].
  split; [discriminate|].
  apply (sub_pools_isolated example_obj example_pack ex_int ex_string).
  - apply new_aligned.
  - exact example_int_registered.
  - exact example_string_registered.
  - discriminate.
Defined.

(** C4. The erase overload that takes a generic pointer does not reach a
    sub-pool.  After one [emplace<int>] the typed [erase<int>] through
    the returned pointer returns and empties the sub-pool of [int]; the
    overload for the generic pointer constructed from the same pointer
    never returns, with any bound on its nested calls. *)
Theorem erase_generic_does_not_delegate :
  exists hs1 h g hs2 p,
    HeterogeneousStorage.emplace example_obj example_pack ex_int 7%Z
      (HeterogeneousStorage.new example_obj example_pack 0) = Returns (hs1, h) /\
    GenericObjectPointer.construct example_obj example_pack ex_int h = Returns g /\
    Storage.size <$> (match HeterogeneousStorage.Get example_obj example_pack ex_int hs1
                      with Returns s => Some s | _ => None end) = Some 1 /\
    HeterogeneousStorage.erase example_obj example_pack ex_int h hs1
      = Returns (hs2, p) /\
    Storage.size <$> (match HeterogeneousStorage.Get example_obj example_pack ex_int hs2
                      with Returns s => Some s | _ => None end) = Some 0 /\
    forall fuel,
      HeterogeneousStorage.erase_generic example_obj fuel g hs1
      = match fuel with 0 => None | S _ => Some IllFormed end.
Proof.
  eexists _, _, _, _, _.
  split; [reflexivity|]. split.
  { unfold GenericObjectPointer.construct.
    by rewrite (decide_True _ _ example_int_registered). }
  split; [reflexivity|]. split; [reflexivity|]. split; [reflexivity|].
  by intros [|fuel].
Qed.

(** ** The typed view *)

Lemma noexcept_idemp {A : Type} (c : outcome A) : noexcept (noexcept c) = noexcept c.
Proof. by destruct c. Qed.

Section view_facts.
Context {Ty : Type} `{EqDecision Ty} (obj : Ty -> Type) (Ts : list Ty).
Context {ObjT : Ty}.

(** The seven members of the view other than [crend] return what the
    member of the same name of the heterogeneous storage returns. *)
Lemma view_members_delegate (v : TypedView.TypedView obj ObjT) :
  TypedView.begin obj Ts v
    = HeterogeneousStorage.begin obj Ts ObjT (TypedView.storage v) /\
  TypedView.end_ obj Ts v
    = HeterogeneousStorage.end_ obj Ts ObjT (TypedView.storage v) /\
  TypedView.cbegin obj Ts v
    = HeterogeneousStorage.cbegin obj Ts ObjT (TypedView.storage v) /\
  TypedView.cend obj Ts v
    = HeterogeneousStorage.cend obj Ts ObjT (TypedView.storage v) /\
  TypedView.rbegin obj Ts v
    = HeterogeneousStorage.rbegin obj Ts ObjT (TypedView.storage v) /\
  TypedView.rend obj Ts v
    = HeterogeneousStorage.rend obj Ts ObjT (TypedView.storage v) /\
  TypedView.crbegin obj Ts v
    = HeterogeneousStorage.crbegin obj Ts ObjT (TypedView.storage v).
Proof. repeat split; apply noexcept_idemp. Qed.

(** [crend] of the view returns what [rend] of the storage returns. *)
Lemma view_crend_is_rend (v : TypedView.TypedView obj ObjT) :
  TypedView.crend obj Ts v
  = HeterogeneousStorage.rend obj Ts ObjT (TypedView.storage v).
Proof. apply noexcept_idemp. Qed.

End view_facts.

(** C9. [crend()] of a typed view does not return what [crend<T>()] of
    the heterogeneous storage returns: on the view of [int] over a fresh
    storage it returns the [reverse_iterator] of [rend<int>()], where
    [crend<int>()] returns a [const_reverse_iterator] (on the same
    position). *)
Theorem view_crend_differs_from_storage_crend :
  let hs := HeterogeneousStorage.new example_obj example_pack 0 in
  let v := TypedView.mk ex_int hs in
  pack (TypedView.crend example_obj example_pack v)
    = Returns (existT k_reverse_iterator (Iter (past_the_end 0))) /\
  pack (HeterogeneousStorage.crend example_obj example_pack ex_int hs)
    = Returns (existT k_const_reverse_iterator (Iter (past_the_end 0))) /\
  pack (TypedView.crend example_obj example_pack v)
    = pack (HeterogeneousStorage.rend example_obj example_pack ex_int hs) /\
  pack (TypedView.crend example_obj example_pack v)
    <> pack (HeterogeneousStorage.crend example_obj example_pack ex_int hs).
Proof.
  simpl. split; [reflexivity|]. split; [reflexivity|]. split; [reflexivity|].
  intros Heq. vm_compute in Heq. inversion Heq.
Qed.

(** * Further properties of the code *)

(** ** The type table: lookups at the edges *)

Section type_table_edges.
Context {Ty : Type} `{EqDecision Ty}.

(** X1. [index_of] is the position of the first row that holds the
    type, also in a pack that names a type twice. *)
Theorem index_of_first_occurrence (Ts : list Ty) (U : Ty) (i : nat) :
  TypeMapping.index_of Ts U = Some i <->
  Ts !! i = Some U /\ forall j, j < i -> Ts !! j <> Some U.
Proof.
  split; [apply index_of_Some|].
  intros [Hi Hfirst].
  assert (U ∈ Ts) as Hin by (by eapply list_elem_of_lookup_2).
  destruct (index_of_elem _ _ Hin) as [i' Hi'].
  destruct (index_of_Some _ _ _ Hi') as [Hl' Hfirst'].
  rewrite Hi'. f_equal.
  destruct (Nat.lt_trichotomy i i') as [Hlt|[->|Hlt]]; [|done|].
  - by destruct (Hfirst' _ Hlt).
  - by destruct (Hfirst _ Hlt).
Qed.

Lemma index_of_None (Ts : list Ty) (U : Ty) :
  TypeMapping.index_of Ts U = None <-> U ∉ Ts.
Proof.
  split.
  - intros Hnone Hin. destruct (index_of_elem _ _ Hin) as [i Hi]. congruence.
  - intros Hout. destruct (TypeMapping.index_of Ts U) as [i|] eqn:Hi; [|done].
    destruct (index_of_Some _ _ _ Hi) as [Hl _].
    destruct Hout. by eapply list_elem_of_lookup_2.
Qed.

(** X2. [index_of] fails (at compile time) exactly for the types that
    are not in the pack. *)
Theorem index_of_unregistered (Ts : list Ty) (U : Ty) :
  TypeMapping.index_of Ts U = None <-> U ∉ Ts.
Proof. apply index_of_None. Qed.

(** X3. [type_of] has a type exactly at the indices below [size];
    [FirstT] is the first type of the pack and [LastT] the last one. *)
Theorem type_of_range (Ts : list Ty) :
  (forall idx, TypeMapping.type_of Ts idx = None <-> TypeMapping.size Ts <= idx) /\
  TypeMapping.FirstT Ts = head Ts /\
  TypeMapping.LastT Ts = last Ts.
Proof.
  split; [|split].
  - intros idx. rewrite type_of_lookup. apply lookup_ge_None.
  - unfold TypeMapping.FirstT. rewrite type_of_lookup. by destruct Ts.
  - unfold TypeMapping.LastT, TypeMapping.size. rewrite type_of_lookup.
    by rewrite last_lookup, Nat.sub_1_r.
Qed.

End type_table_edges.

(** ** One storage: pointers across emplace and erase *)

Section storage_pointers.
Context {T : Type}.

Lemma value_of_Some n v (l : list (nat * T)) :
  Storage.value_of n l = Some v -> (n, v) ∈ l.
Proof.
  induction l as [|[m w] l IH]; simpl; [done|].
  destruct (decide (n = m)) as [->|]; [intros [= ->]; left|].
  intros Hv. right. auto.
Qed.

Lemma value_of_None n (l : list (nat * T)) :
  Storage.value_of n l = None <-> n ∉ l.*1.
Proof.
  induction l as [|[m w] l IH]; simpl.
  - split; [intros _; apply not_elem_of_nil|done].
  - destruct (decide (n = m)) as [->|Hne].
    + split; [done|]. intros Hout. destruct Hout. left.
    + rewrite IH, not_elem_of_cons. tauto.
Qed.

Lemma value_of_elem n v (l : list (nat * T)) :
  NoDup l.*1 -> (n, v) ∈ l -> Storage.value_of n l = Some v.
Proof.
  induction l as [|[m w] l IH]; simpl; intros Hnd Hin.
  - by apply elem_of_nil in Hin.
  - apply NoDup_cons in Hnd as [Hm Hnd].
    apply elem_of_cons in Hin as [[= -> ->]|Hin].
    + by rewrite decide_True.
    + rewrite decide_False; [auto|].
      intros ->. apply Hm. by apply (list_elem_of_fmap_2 fst) in Hin.
Qed.

Lemma value_of_app_l n (l k : list (nat * T)) v :
  Storage.value_of n l = Some v -> Storage.value_of n (l ++ k) = Some v.
Proof.
  induction l as [|[m w] l IH]; simpl; [done|].
  destruct (decide (n = m)); auto.
Qed.

Lemma value_of_filter_ne n m (l : list (nat * T)) :
  m <> n ->
  Storage.value_of m (filter (fun kv => kv.1 <> n) l) = Storage.value_of m l.
Proof.
  intros Hne. induction l as [|[k w] l IH]; [done|].
  destruct (decide (k = n)) as [->|Hk].
  - rewrite filter_cons_False by (simpl; auto). simpl.
    by rewrite decide_False.
  - rewrite filter_cons_True by done. simpl. by rewrite IH.
Qed.

Lemma unlink_Some_linked n (l r : list (nat * T)) :
  Storage.unlink n l = Some r -> n ∈ l.*1.
Proof.
  revert r. induction l as [|[m v] l IH]; intros r; simpl; [done|].
  destruct (decide (n = m)) as [->|]; [intros _; left|].
  destruct (Storage.unlink n l) as [r'|]; [|done].
  intros _. right. by eapply IH.
Qed.

Lemma new_well_formed a : well_formed (Storage.new (T := T) a).
Proof. split; simpl; [constructor|]. by intros n ?%elem_of_nil. Qed.

Lemma emplace_well_formed (val : T) (s : Storage.Storage T) :
  well_formed s -> well_formed (Storage.emplace val s).1.
Proof.
  intros [Hnd Hlt]. split; simpl; rewrite fmap_app; simpl.
  - apply NoDup_app. split; [done|]. split; [|apply NoDup_singleton].
    intros n Hn ->%list_elem_of_singleton. specialize (Hlt _ Hn). lia.
  - intros n [Hn| ->%list_elem_of_singleton]%elem_of_app; [|lia].
    specialize (Hlt _ Hn). lia.
Qed.

Lemma erase_nodes (p p' : Storage.ObjectPointer T) (s s' : Storage.Storage T) :
  well_formed s -> Storage.erase p s = Returns (s', p') ->
  exists n, base (Storage.it p) = at_node n /\ linked n s /\
    s' = Storage.mk (Storage.this s)
           (filter (fun kv => kv.1 <> n) (Storage.nodes s)) (Storage.allocated s) /\
    p' = end_pointer (Storage.this s).
Proof.
  intros [Hnd _]. unfold Storage.erase.
  destruct (base (Storage.it p)) as [|n|o] eqn:Hp; try done.
  destruct (Storage.unlink n (Storage.nodes s)) as [l|] eqn:Hl; [|done].
  pose proof (unlink_Some_linked _ _ _ Hl) as Hin.
  rewrite (unlink_filter _ _ Hnd Hin) in Hl. injection Hl as <-.
  intros [= <- <-]. by exists n.
Qed.

Lemma erase_well_formed (p p' : Storage.ObjectPointer T) (s s' : Storage.Storage T) :
  well_formed s -> Storage.erase p s = Returns (s', p') -> well_formed s'.
Proof.
  intros Hwf He. destruct (erase_nodes _ _ _ _ Hwf He) as (n & _ & _ & -> & _).
  destruct Hwf as [Hnd Hlt]. split; simpl.
  - eapply sublist_NoDup; [done|]. apply fmap_sublist, sublist_filter.
  - intros m Hm. apply Hlt.
    apply list_elem_of_fmap in Hm as ([k w] & -> & Hin).
    apply list_elem_of_filter in Hin as [_ Hin].
    by apply (list_elem_of_fmap_2 fst) in Hin.
Qed.

(** X4. The list invariant: a fresh storage has distinct nodes, all
    allocated by it, and [emplace], [erase], [clear] and the copy
    constructor keep this. *)
Theorem well_formed_preserved (s : Storage.Storage T) :
  well_formed s ->
  (forall val, well_formed (Storage.emplace val s).1) /\
  (forall p s' p', Storage.erase p s = Returns (s', p') -> well_formed s') /\
  well_formed (Storage.clear s) /\
  (forall a, well_formed (Storage.copy a s) /\ well_formed (Storage.new (T := T) a)).
Proof.
  intros Hwf. split; [|split; [|split]].
  - intros val. by apply emplace_well_formed.
  - intros p s' p'. by apply erase_well_formed.
  - split; simpl; [constructor|]. by intros n ?%elem_of_nil.
  - intros a. split; [|apply new_well_formed].
    assert ((Storage.nodes (Storage.copy a s)).*1
            = seq 0 (length (Storage.nodes s))) as Hserials.
    { simpl. rewrite fmap_imap.
      rewrite (imap_ext _ (fun j _ => j)) by done.
      by rewrite (imap_seq_0 _ (fun j => j)), list_fmap_id. }
    split; rewrite Hserials.
    + apply NoDup_seq.
    + intros n Hn. apply elem_of_seq in Hn. simpl. lia.
Qed.

(** X5. In a well-formed storage [emplace] returns a pointer that
    converts to true, names this storage and dereferences to the new
    object; every pointer that could be dereferenced before still
    dereferences to the same object, and the new object is the last of
    the list. *)
Theorem emplace_pointer (val : T) (s : Storage.Storage T) :
  well_formed s ->
  Storage.operator_bool (Storage.emplace val s).2 = true /\
  Storage.GetStorage (Storage.emplace val s).2 = Some (Storage.this s) /\
  Storage.operator_star (Storage.emplace val s).2 (Storage.emplace val s).1
    = Returns val /\
  (forall q w, Storage.operator_star q s = Returns w ->
               Storage.operator_star q (Storage.emplace val s).1 = Returns w) /\
  (Storage.nodes (Storage.emplace val s).1).*2 = (Storage.nodes s).*2 ++ [val].
Proof.
  intros [Hnd Hlt]. split; [done|]. split; [done|]. split; [|split].
  - unfold Storage.operator_star, Storage.dereference. simpl.
    rewrite value_of_app; [done|].
    intros Hin%Hlt. lia.
  - intros q w. unfold Storage.operator_star, Storage.dereference. simpl.
    destruct (base (Storage.it q)) as [|n|o]; try done.
    destruct (Storage.value_of n (Storage.nodes s)) as [w'|] eqn:Hw; [|done].
    intros [= ->]. by rewrite (value_of_app_l _ _ _ _ Hw).
  - simpl. by rewrite fmap_app.
Qed.

(** X6. In a well-formed storage, [erase] through a pointer on a linked
    node returns, leaves in the caller's variable a pointer that
    converts to false, unlinks that node and no other: a pointer on
    another node dereferences as before, and the objects that remain
    keep their order. *)
Theorem erase_pointer (p : Storage.ObjectPointer T) (n : nat)
    (s : Storage.Storage T) :
  well_formed s -> base (Storage.it p) = at_node n -> linked n s ->
  exists s' p',
    Storage.erase p s = Returns (s', p') /\
    Storage.operator_bool p' = false /\
    Storage.operator_eq p' (Storage.mkptr (Storage.end_ s') (Some (Storage.this s'))) = true /\
    ~ linked n s' /\
    (forall q m, base (Storage.it q) = at_node m -> m <> n ->
       Storage.operator_star q s' = Storage.operator_star q s) /\
    (Storage.nodes s').*2
      = (filter (fun kv => kv.1 <> n) (Storage.nodes s)).*2.
Proof.
  intros Hwf Hp Hn. pose proof Hwf as [Hnd _].
  exists (Storage.mk (Storage.this s)
            (filter (fun kv => kv.1 <> n) (Storage.nodes s)) (Storage.allocated s)),
         (end_pointer (Storage.this s)).
  split; [|split; [|split; [|split; [|split]]]].
  - unfold Storage.erase. rewrite Hp, (unlink_filter _ _ Hnd Hn). done.
  - unfold Storage.operator_bool. simpl. by apply bool_decide_eq_false_2; intros [].
  - unfold Storage.operator_eq. by apply bool_decide_eq_true.
  - unfold linked. simpl. intros Hin.
    apply list_elem_of_fmap in Hin as ([k w] & -> & Hin).
    by apply list_elem_of_filter in Hin as [? _].
  - intros q m Hq Hne. unfold Storage.operator_star, Storage.dereference.
    rewrite Hq. simpl. by rewrite value_of_filter_ne.
  - done.
Qed.

(** X7. [erase] resets only the variable it is given.  After an erase, a
    copy of the pointer kept by the caller is unchanged, so it converts
    to true as before, but the node is gone: dereferencing the copy and
    erasing through it are undefined behaviour. *)
Theorem erase_twice_undefined (p p' : Storage.ObjectPointer T)
    (s s' : Storage.Storage T) :
  well_formed s -> Storage.erase p s = Returns (s', p') ->
  Storage.operator_star p s' = Undefined /\
  Storage.erase p s' = Undefined /\
  (Storage.cont p = Some (Storage.this s) -> Storage.operator_bool p = true).
Proof.
  intros Hwf He.
  destruct (erase_nodes _ _ _ _ Hwf He) as (n & Hp & Hn & -> & ->).
  assert (n ∉ (filter (fun kv : nat * T => kv.1 <> n) (Storage.nodes s)).*1) as Hout.
  { intros Hin. apply list_elem_of_fmap in Hin as ([k w] & -> & Hin).
    by apply list_elem_of_filter in Hin as [? _]. }
  split; [|split].
  - unfold Storage.operator_star, Storage.dereference. rewrite Hp. simpl.
    by apply value_of_None in Hout as ->.
  - unfold Storage.erase. rewrite Hp. simpl.
    destruct (Storage.unlink n _) as [r|] eqn:Hr; [|done].
    by apply unlink_Some_linked in Hr.
  - intros Hc. unfold Storage.operator_bool. rewrite Hc, Hp.
    by apply bool_decide_eq_true.
Qed.

Lemma empty_begin_end (s : Storage.Storage T) :
  Storage.empty s = true <-> Storage.begin s = Storage.end_ s.
Proof.
  unfold Storage.empty, Storage.size, Storage.begin, Storage.end_,
    Storage.begin_position, Storage.end_position.
  rewrite bool_decide_eq_true.
  destruct (Storage.nodes s) as [|[n v] l]; simpl; [done|].
  split; [done|]. intros [=].
Qed.

End storage_pointers.

(** ** One storage: reverse iteration and copies *)

Section storage_traversals.
Context {T : Type}.

Lemma before_app m n v w (pre suf : list (nat * T)) :
  m ∉ (pre ++ [(n, v)]).*1 ->
  Storage.before m (pre ++ (n, v) :: (m, w) :: suf) = Some n.
Proof.
  induction pre as [|[k u] pre IH]; intros Hm.
  - simpl. by rewrite decide_True.
  - change (((k, u) :: pre) ++ [(n, v)]) with ((k, u) :: (pre ++ [(n, v)])) in Hm.
    rewrite fmap_cons in Hm. apply not_elem_of_cons in Hm as [Hk Hm].
    specialize (IH Hm).
    change (((k, u) :: pre) ++ (n, v) :: (m, w) :: suf)
      with ((k, u) :: (pre ++ (n, v) :: (m, w) :: suf)).
    cbn [Storage.before].
    destruct pre as [|[k' u'] pre]; simpl in *.
    + apply not_elem_of_cons in Hm as [Hn _]. by rewrite decide_False.
    + apply not_elem_of_cons in Hm as [Hk' _]. by rewrite decide_False.
Qed.

(** The reverse loop from the base on a node (or on the header) visits
    the nodes linked before it, last to first. *)
Lemma reverse_for_each_prefix (s : Storage.Storage T) (pre suf : list (nat * T)) fuel :
  Storage.nodes s = pre ++ suf -> distinct_nodes s -> length pre <= fuel ->
  Storage.reverse_for_each fuel s
    (match suf with
     | [] => past_the_end (Storage.this s)
     | (m, _) :: _ => at_node m
     end)
    (Storage.begin_position s)
  = Some (Returns (reverse pre.*2)).
Proof.
  unfold distinct_nodes.
  revert suf fuel. induction pre as [|[n v] pre IH] using rev_ind;
    intros suf fuel Hs Hnd Hfuel.
  - simpl in Hs. unfold Storage.begin_position. rewrite Hs.
    destruct fuel; cbn [Storage.reverse_for_each];
      destruct suf as [|[m w] suf]; by rewrite decide_True.
  - rewrite length_app in Hfuel. simpl in Hfuel.
    destruct fuel as [|fuel]; [lia|].
    rewrite <-app_assoc in Hs. simpl in Hs.
    pose proof Hnd as Hnd'. rewrite Hs, fmap_app in Hnd'.
    apply NoDup_app in Hnd' as (_ & Hdisj & Htail). simpl in Htail.
    apply NoDup_cons in Htail as [Hn_suf _].
    assert (n ∉ pre.*1) as Hn_pre.
    { intros Hin. apply (Hdisj _ Hin). simpl. left. }
    cbn [Storage.reverse_for_each]. rewrite decide_False.
    2:{ unfold Storage.begin_position. rewrite Hs.
        destruct suf as [|[m w] suf]; [by destruct pre as [|[] ?]|].
        assert (m ∉ (pre ++ [(n, v)]).*1) as Hm.
        { rewrite fmap_app. simpl. intros [Hin| ->%list_elem_of_singleton]%elem_of_app.
          - apply (Hdisj _ Hin). simpl. right. left.
          - apply Hn_suf. simpl. left. }
        destruct pre as [|[k u] pre]; simpl in *.
        - intros [= ->]. apply Hm. left.
        - intros [= ->]. apply Hm. left. }
    assert (Storage.decrement s
              (match suf with
               | [] => past_the_end (Storage.this s)
               | (m, _) :: _ => at_node m
               end) = Returns (at_node n)) as ->.
    { unfold Storage.decrement. destruct suf as [|[m w] suf].
      - rewrite decide_True by done. rewrite Hs.
        by rewrite (last_snoc (n, v) pre).
      - rewrite Hs, before_app; [done|].
        rewrite fmap_app. simpl.
        intros [Hin| ->%list_elem_of_singleton]%elem_of_app.
        + apply (Hdisj _ Hin). simpl. right. left.
        + apply Hn_suf. simpl. left. }
    unfold Storage.dereference. rewrite Hs, (value_of_app _ _ _ _ Hn_pre).
    rewrite (IH ((n, v) :: suf) fuel Hs Hnd); [|lia].
    by rewrite fmap_app, reverse_app.
Qed.

Lemma reverse_range_for_nodes (s : Storage.Storage T) (fuel : nat) :
  distinct_nodes s -> Storage.size s <= fuel ->
  Storage.reverse_range_for fuel s = Some (Returns (reverse (Storage.nodes s).*2)).
Proof.
  intros Hnd Hfuel.
  unfold Storage.reverse_range_for, Storage.rbegin, Storage.rend,
    Storage.end_position. simpl.
  apply (reverse_for_each_prefix s (Storage.nodes s) []); [|done|done].
  by rewrite app_nil_r.
Qed.

(** X10. On a storage with distinct nodes the loop from [rbegin()] to
    [rend()], with a bound of at least [size()], returns the objects of
    the forward loop in reverse order. *)
Theorem reverse_range_for_reverses (s : Storage.Storage T) (fuel : nat) :
  distinct_nodes s -> Storage.size s <= fuel ->
  exists vs,
    Storage.range_for fuel s = Some (Returns vs) /\
    Storage.reverse_range_for fuel s = Some (Returns (reverse vs)).
Proof.
  intros Hnd Hfuel. exists (Storage.nodes s).*2.
  split; [by apply range_for_nodes|].
  unfold Storage.reverse_range_for, Storage.rbegin, Storage.rend,
    Storage.end_position. simpl.
  apply (reverse_for_each_prefix s (Storage.nodes s) []); [|done|done].
  by rewrite app_nil_r.
Qed.

Lemma copy_values a (s : Storage.Storage T) :
  (Storage.nodes (Storage.copy a s)).*2 = (Storage.nodes s).*2.
Proof.
  simpl. rewrite fmap_imap.
  rewrite (imap_ext _ (const snd)) by done. apply imap_const.
Qed.

Lemma copy_distinct a (s : Storage.Storage T) : distinct_nodes (Storage.copy a s).
Proof.
  unfold distinct_nodes. simpl. rewrite fmap_imap.
  rewrite (imap_ext _ (fun j _ => j)) by done.
  rewrite (imap_seq_0 _ (fun j => j)), list_fmap_id. apply NoDup_seq.
Qed.

Lemma copy_range_for (a : nat) (s : Storage.Storage T) (fuel : nat) :
  distinct_nodes s -> Storage.size s <= fuel ->
  Storage.range_for fuel (Storage.copy a s) = Storage.range_for fuel s.
Proof.
  intros Hnd Hfuel.
  rewrite !range_for_nodes; [|done|done|apply copy_distinct|].
  - by rewrite copy_values.
  - unfold Storage.size. simpl. by rewrite length_imap.
Qed.

(** X11. The copy constructor makes a storage at the new address with
    as many objects, and the loop over the copy visits the objects of
    the original in the same order. *)
Theorem copy_same_objects (a : nat) (s : Storage.Storage T) (fuel : nat) :
  distinct_nodes s -> Storage.size s <= fuel ->
  Storage.size (Storage.copy a s) = Storage.size s /\
  Storage.range_for fuel (Storage.copy a s) = Storage.range_for fuel s /\
  Storage.reverse_range_for fuel (Storage.copy a s)
    = Storage.reverse_range_for fuel s /\
  Storage.end_ (Storage.copy a s) = Iter (past_the_end a).
Proof.
  intros Hnd Hfuel.
  assert (Storage.size (Storage.copy a s) = Storage.size s) as Hsz.
  { unfold Storage.size. simpl. by rewrite length_imap. }
  split; [done|]. split; [|split; [|done]].
  - rewrite !range_for_nodes; [|done|done|apply copy_distinct|by rewrite Hsz].
    by rewrite copy_values.
  - rewrite !reverse_range_for_nodes;
      [|done|done|apply copy_distinct|by rewrite Hsz].
    by rewrite copy_values.
Qed.

(** X12. After a valid program on a fresh storage every pointer the
    caller holds is accounted for: the pointer of an emplace call that
    was not erased converts to true, names the storage and dereferences
    to the object of that call, whatever was emplaced or erased since;
    the pointer of an erased one converts to false. *)
Theorem held_pointers_stable (a : nat) (ops : list (op T)) :
  valid ops = true ->
  exists c, run ops (start a) = Returns c /\
    forall k v, emplaced ops !! k = Some v ->
      exists p, held c !! k = Some p /\
        (k ∉ erased ops ->
           Storage.operator_bool p = true /\
           Storage.GetStorage p = Some a /\
           Storage.operator_star p (pool c) = Returns v) /\
        (k ∈ erased ops ->
           Storage.operator_bool p = false /\
           Storage.operator_eq p
             (Storage.mkptr (Storage.end_ (pool c)) (Some a)) = true).
Proof.
  intros Hv. exists (state_after a ops). split; [by apply run_valid|].
  intros k v Hk. pose proof (lookup_lt_Some _ _ _ Hk) as Hlt.
  simpl. rewrite list_lookup_fmap, lookup_seq_lt by done. simpl.
  destruct (decide (k ∈ erased ops)) as [Hin|Hout].
  - exists (end_pointer a). split; [done|]. split; [done|]. intros _.
    split.
    + unfold Storage.operator_bool. simpl. by apply bool_decide_eq_false_2; intros [].
    + unfold Storage.operator_eq. by apply bool_decide_eq_true.
  - exists (node_pointer a k). split; [done|]. split; [|done]. intros _.
    split; [done|]. split; [done|].
    unfold Storage.operator_star, Storage.dereference. simpl.
    rewrite (value_of_elem k v); [done|apply (state_after_distinct a ops)|].
    apply list_elem_of_filter. split; [done|].
    apply elem_of_lookup_imap. eauto.
Qed.

End storage_traversals.

(** ** Generic object pointers: casts and equality *)

Section generic_edges.
Context {Ty : Type} `{EqDecision Ty} (obj : Ty -> Type) (Ts : list Ty).

Abbreviation GOP := (GenericObjectPointer.GenericObjectPointer obj).

Lemma get_Returns (F : Ty -> Type) (T : Ty) (v : variant F) (x : F T) :
  get T v = Returns x <-> v = holding T x.
Proof.
  split; [|intros ->; apply get_holding].
  destruct v as [|U y]; simpl; [done|].
  destruct (decide (U = T)) as [e|]; [|done]. subst U.
  simpl. by intros [= ->].
Qed.

Lemma get_outcomes (F : Ty -> Type) (T : Ty) (v : variant F) :
  (exists x, v = holding T x /\ get T v = Returns x) \/
  get T v = Throws bad_variant_access.
Proof.
  destruct v as [|U y]; simpl; [by right|].
  destruct (decide (U = T)) as [e|]; [|by right]. subst U. left.
  by exists y.
Qed.

(** X13. The cast of a generic pointer to the pointer type of a
    registered type [T] returns a pointer exactly when the generic
    pointer holds the alternative of [T], and then it returns the held
    pointer; otherwise (another alternative, or valueless) it throws the
    [std::runtime_error].  It never returns a pointer converted from
    another alternative. *)
Theorem cast_returns_iff (T : Ty) (g : GOP) :
  T ∈ Ts ->
  (forall p, GenericObjectPointer.cast obj Ts T g = Returns p <->
             GenericObjectPointer.ptr g = holding T p) /\
  ((forall p, GenericObjectPointer.ptr g <> holding T p) ->
   GenericObjectPointer.cast obj Ts T g = Throws not_stored).
Proof.
  intros HT. unfold GenericObjectPointer.cast. rewrite decide_True by done.
  split.
  - intros p. rewrite <-get_Returns.
    destruct (get_outcomes (fun X => Storage.ObjectPointer (obj X)) T
                (GenericObjectPointer.ptr g)) as [(x & _ & ->)| ->]; simpl; done.
  - intros Hno.
    destruct (get_outcomes (fun X => Storage.ObjectPointer (obj X)) T
                (GenericObjectPointer.ptr g)) as [(x & Hx & _)| ->]; [|done].
    by destruct (Hno x).
Qed.

(** X14. Two generic pointers compare equal exactly when both are
    valueless or both hold the alternative of one type with pointers on
    one iterator; the owning storages the pointers record play no part,
    and pointers of different types are never equal. *)
Theorem generic_operator_eq_iff (g g' : GOP) :
  GenericObjectPointer.operator_eq obj g g' = true <->
  (GenericObjectPointer.ptr g = valueless /\ GenericObjectPointer.ptr g' = valueless) \/
  (exists T p q,
     GenericObjectPointer.ptr g = holding T p /\
     GenericObjectPointer.ptr g' = holding T q /\
     Storage.it p = Storage.it q).
Proof.
  unfold GenericObjectPointer.operator_eq.
  destruct g as [[|U q]], g' as [[|T p]]; simpl.
  - split; [by left|done].
  - split; [done|]. intros [[_ [=]]|(? & ? & ? & [=] & _)].
  - split; [done|]. intros [[[=] _]|(? & ? & ? & _ & [=] & _)].
  - destruct (decide (U = T)) as [e|Hne].
    + subst U. simpl. unfold Storage.operator_eq. rewrite bool_decide_eq_true.
      split.
      * intros Heq. right. by exists T, q, p.
      * intros [[[=] _]|(T' & q' & p' & Hq & Hp & Heq)].
        assert (T' = T) as -> by (by injection Hq).
        apply get_Returns in Hq, Hp. rewrite get_holding in Hq, Hp.
        injection Hq as <-. injection Hp as <-. done.
    + split; [done|].
      intros [[[=] _]|(T' & q' & p' & Hq & Hp & _)].
      destruct Hne. transitivity T'; [by injection Hq|by injection Hp].
Qed.

End generic_edges.

(** X15. A default-constructed generic pointer holds the null pointer of
    the first type of the pack: the cast to that type returns the null
    pointer, which converts to false; the cast to any other registered
    type throws.  Over an empty pack there is no such object. *)
Theorem default_generic_pointer {Ty : Type} `{EqDecision Ty} (obj : Ty -> Type) :
  GenericObjectPointer.default obj [] = IllFormed /\
  forall (T : Ty) (Ts : list Ty),
    exists g,
      GenericObjectPointer.default obj (T :: Ts) = Returns g /\
      GenericObjectPointer.cast obj (T :: Ts) T g = Returns Storage.null /\
      Storage.operator_bool (T := obj T) Storage.null = false /\
      forall U, U ∈ Ts -> U <> T ->
        GenericObjectPointer.cast obj (T :: Ts) U g = Throws not_stored.
Proof.
  split; [done|]. intros T Ts.
  exists (GenericObjectPointer.mk (holding T Storage.null)).
  split; [done|]. split; [|split; [done|]].
  - unfold GenericObjectPointer.cast. rewrite decide_True by left.
    simpl GenericObjectPointer.ptr. by rewrite get_holding.
  - intros U HU Hne. unfold GenericObjectPointer.cast.
    rewrite decide_True by (by right).
    simpl GenericObjectPointer.ptr. by rewrite get_holding_ne.
Qed.

(** ** The heterogeneous storage: routing, errors and sizes *)

Section heterogeneous_edges.
Context {Ty : Type} `{EqDecision Ty} (obj : Ty -> Type) (Ts : list Ty).

Abbreviation HSt := (HeterogeneousStorage.HeterogeneousStorage obj).

Lemma Get_set_eq (hs : HSt) (A : Ty) (s : Storage.Storage (obj A)) :
  aligned Ts hs -> A ∈ Ts ->
  HeterogeneousStorage.Get obj Ts A (HeterogeneousStorage.set obj Ts A s hs)
  = Returns s.
Proof.
  intros [Hlen _] HA. destruct (index_of_elem _ _ HA) as [i Hi].
  destruct (index_of_Some _ _ _ Hi) as [Hl _].
  unfold HeterogeneousStorage.Get, HeterogeneousStorage.set. rewrite Hi. simpl.
  rewrite list_lookup_insert_eq by (rewrite Hlen; by eapply lookup_lt_Some).
  by rewrite get_holding.
Qed.

(** X16. A type that is not in the pack is rejected where it is named:
    [Get], [emplace], [erase] and the begin/end family fail at compile
    time, through [index_of]; none of them throws for it at run time. *)
Theorem unregistered_type_rejected (A : Ty) (hs : HSt) :
  A ∉ Ts ->
  HeterogeneousStorage.Get obj Ts A hs = IllFormed /\
  (forall val, HeterogeneousStorage.emplace obj Ts A val hs = IllFormed) /\
  (forall ptr, HeterogeneousStorage.erase obj Ts A ptr hs = IllFormed) /\
  HeterogeneousStorage.begin obj Ts A hs = IllFormed /\
  HeterogeneousStorage.end_ obj Ts A hs = IllFormed /\
  HeterogeneousStorage.cbegin obj Ts A hs = IllFormed /\
  HeterogeneousStorage.cend obj Ts A hs = IllFormed /\
  HeterogeneousStorage.rbegin obj Ts A hs = IllFormed /\
  HeterogeneousStorage.rend obj Ts A hs = IllFormed /\
  HeterogeneousStorage.crbegin obj Ts A hs = IllFormed /\
  HeterogeneousStorage.crend obj Ts A hs = IllFormed.
Proof.
  intros HA%index_of_None.
  assert (HeterogeneousStorage.Get obj Ts A hs = IllFormed) as HG.
  { unfold HeterogeneousStorage.Get. by rewrite HA. }
  unfold HeterogeneousStorage.emplace, HeterogeneousStorage.erase,
    HeterogeneousStorage.begin, HeterogeneousStorage.end_,
    HeterogeneousStorage.cbegin, HeterogeneousStorage.cend,
    HeterogeneousStorage.rbegin, HeterogeneousStorage.rend,
    HeterogeneousStorage.crbegin, HeterogeneousStorage.crend.
  rewrite HG. repeat split.
Qed.

(** X17. On an aligned storage the typed operations are the operations
    of the sub-pool: [emplace<A>] returns the pointer that the sub-pool's
    [emplace] returns and leaves the sub-pool as that [emplace] leaves
    it; [erase<A>] returns when the sub-pool's [erase] returns, with its
    effect, and is undefined behaviour when that one is.  The storage
    stays aligned, so [Get] of a registered type never throws. *)
Theorem typed_operations_delegate (A : Ty) (hs : HSt) :
  aligned Ts hs -> A ∈ Ts ->
  exists sA,
    HeterogeneousStorage.Get obj Ts A hs = Returns sA /\
    (forall val, exists hs',
       HeterogeneousStorage.emplace obj Ts A val hs
         = Returns (hs', (Storage.emplace val sA).2) /\
       HeterogeneousStorage.Get obj Ts A hs' = Returns (Storage.emplace val sA).1 /\
       aligned Ts hs') /\
    (forall ptr s' p', Storage.erase ptr sA = Returns (s', p') ->
       exists hs',
         HeterogeneousStorage.erase obj Ts A ptr hs = Returns (hs', p') /\
         HeterogeneousStorage.Get obj Ts A hs' = Returns s' /\
         aligned Ts hs') /\
    (forall ptr, Storage.erase ptr sA = Undefined ->
       HeterogeneousStorage.erase obj Ts A ptr hs = Undefined).
Proof.
  intros Hal HA. destruct (Get_aligned obj Ts hs A Hal HA) as (i & sA & _ & _ & HG).
  exists sA. split; [done|]. split; [|split].
  - intros val. unfold HeterogeneousStorage.emplace. rewrite HG. simpl.
    eexists. split; [done|]. split; [by apply Get_set_eq|by apply set_aligned].
  - intros ptr s' p' He. unfold HeterogeneousStorage.erase. rewrite HG. simpl.
    rewrite He. simpl. eexists. split; [done|].
    split; [by apply Get_set_eq|by apply set_aligned].
  - intros ptr He. unfold HeterogeneousStorage.erase. rewrite HG. simpl.
    by rewrite He.
Qed.

Lemma emplace_set (A : Ty) (val : obj A) (sA : Storage.Storage (obj A)) (hs : HSt) :
  HeterogeneousStorage.Get obj Ts A hs = Returns sA ->
  HeterogeneousStorage.emplace obj Ts A val hs
  = Returns (HeterogeneousStorage.set obj Ts A (Storage.emplace val sA).1 hs,
             (Storage.emplace val sA).2).
Proof. intros HG. unfold HeterogeneousStorage.emplace. by rewrite HG. Qed.

Lemma erase_set (A : Ty) ptr (sA s' : Storage.Storage (obj A)) p' (hs : HSt) :
  HeterogeneousStorage.Get obj Ts A hs = Returns sA ->
  Storage.erase ptr sA = Returns (s', p') ->
  HeterogeneousStorage.erase obj Ts A ptr hs
  = Returns (HeterogeneousStorage.set obj Ts A s' hs, p').
Proof.
  intros HG He. unfold HeterogeneousStorage.erase. rewrite HG. simpl.
  by rewrite He.
Qed.

(** The sum of the sizes of the sub-pools of the types of [L]. *)
Abbreviation total L hs :=
  (foldr (fun T rest =>
            s ← HeterogeneousStorage.Get obj Ts T hs; n ← rest;
            Returns (Storage.size s + n))
         (Returns 0) L).

(** Writing the sub-pool of [A] changes the sum by the change of its
    size, when [A] is one of the types summed, and not otherwise. *)
Lemma total_set (A : Ty) (sA s' : Storage.Storage (obj A)) (hs : HSt) (L : list Ty) :
  aligned Ts hs -> HeterogeneousStorage.Get obj Ts A hs = Returns sA -> A ∈ Ts ->
  NoDup L -> (forall T, T ∈ L -> T ∈ Ts) ->
  exists n,
    total L hs
      = Returns (if decide (A ∈ L) then Storage.size sA + n else n) /\
    total L (HeterogeneousStorage.set obj Ts A s' hs)
      = Returns (if decide (A ∈ L) then Storage.size s' + n else n).
Proof.
  intros Hal HG HA. induction L as [|T L IH]; intros Hnd Hsub.
  - exists 0. by rewrite decide_False by apply not_elem_of_nil.
  - apply NoDup_cons in Hnd as [HT Hnd].
    destruct (IH Hnd) as (n & Hn & Hn'); [intros U HU; apply Hsub; by right|].
    cbn [foldr].
    destruct (decide (T = A)) as [->|Hne].
    + rewrite (decide_False (P := A ∈ L)) in Hn, Hn' by done.
      exists n. rewrite !(decide_True (P := A ∈ A :: L)) by left.
      by rewrite Hn, Hn', HG, (Get_set_eq hs A s' Hal HA).
    + destruct (Get_aligned obj Ts hs T Hal) as (_ & sT & _ & _ & HGT);
        [apply Hsub; left|].
      exists (Storage.size sT + n).
      rewrite Hn, Hn', (Get_set_ne obj Ts hs A T s'), HGT by done.
      destruct (decide (A ∈ L)) as [Hin|Hout].
      * rewrite !(decide_True (P := A ∈ T :: L)) by (by right).
        cbn. split; f_equal; lia.
      * rewrite !(decide_False (P := A ∈ T :: L)); [done| |];
          by intros [?|?]%elem_of_cons.
Qed.

(** X18. Over a pack of distinct types, on an aligned storage,
    [emplace<A>] increases [size()] by one and leaves the storage not
    empty; an [erase<A>] that returns decreases [size()] by one. *)
Theorem heterogeneous_size_counts (A : Ty) (hs : HSt) :
  aligned Ts hs -> NoDup Ts -> A ∈ Ts ->
  exists n,
    HeterogeneousStorage.size obj Ts hs = Returns n /\
    (forall val hs' p,
       HeterogeneousStorage.emplace obj Ts A val hs = Returns (hs', p) ->
       HeterogeneousStorage.size obj Ts hs' = Returns (S n) /\
       HeterogeneousStorage.empty obj Ts hs' = Returns false) /\
    (forall ptr hs' p,
       HeterogeneousStorage.erase obj Ts A ptr hs = Returns (hs', p) ->
       exists m, n = S m /\ HeterogeneousStorage.size obj Ts hs' = Returns m).
Proof.
  intros Hal Hnd HA.
  destruct (Get_aligned obj Ts hs A Hal HA) as (i & sA & _ & _ & HG).
  destruct (total_set A sA sA hs Ts Hal HG HA Hnd) as (n & Hn & _); [done|].
  rewrite decide_True in Hn by done.
  exists (Storage.size sA + n). unfold HeterogeneousStorage.size.
  split; [by rewrite Hn|]. split.
  - intros val hs' p. rewrite (emplace_set A val sA hs HG). intros Heq.
    assert (hs' = HeterogeneousStorage.set obj Ts A (Storage.emplace val sA).1 hs)
      as -> by congruence.
    destruct (total_set A sA (Storage.emplace val sA).1 hs Ts Hal HG HA Hnd)
      as (n' & Hn1 & Hn2); [done|].
    rewrite decide_True in Hn1, Hn2 by done.
    assert (n' = n) as -> by (rewrite Hn in Hn1; injection Hn1; lia).
    unfold HeterogeneousStorage.empty, HeterogeneousStorage.size.
    rewrite Hn2, (emplace_size val sA). done.
  - intros ptr hs' p Herase.
    assert (exists s' p', Storage.erase ptr sA = Returns (s', p')) as (s' & p' & He).
    { unfold HeterogeneousStorage.erase in Herase. rewrite HG in Herase.
      simpl in Herase.
      destruct (Storage.erase ptr sA) as [[s' p']| | | |]; try done. eauto. }
    rewrite (erase_set A ptr sA s' p' hs HG He) in Herase.
    assert (hs' = HeterogeneousStorage.set obj Ts A s' hs) as -> by congruence.
    apply erase_size in He.
    destruct (total_set A sA s' hs Ts Hal HG HA Hnd) as (n' & Hn1 & Hn2); [done|].
    rewrite decide_True in Hn1, Hn2 by done.
    assert (n' = n) as -> by (rewrite Hn in Hn1; injection Hn1; lia).
    exists (Storage.size s' + n). split; [lia|]. by rewrite Hn2.
Qed.

(** X19. The default constructor gives an object exactly for a pack
    that is not empty and names no type twice; the object is aligned
    with the pack, its [size()] is 0 and it is empty.  For the empty
    pack and for a pack that repeats a type there is no object. *)
Theorem heterogeneous_new_empty (a : nat) :
  (Ts = [] \/ ~ NoDup Ts ->
   HeterogeneousStorage.default_constructor obj Ts a = IllFormed) /\
  (Ts <> [] -> NoDup Ts ->
   exists hs,
     HeterogeneousStorage.default_constructor obj Ts a = Returns hs /\
     aligned Ts hs /\
     HeterogeneousStorage.size obj Ts hs = Returns 0 /\
     HeterogeneousStorage.empty obj Ts hs = Returns true).
Proof.
  unfold HeterogeneousStorage.default_constructor. split.
  { intros Hbad. rewrite decide_False; [done|]. intros [Hne Hnd].
    by destruct Hbad. }
  intros Hne Hnd. rewrite decide_True by done.
  exists (HeterogeneousStorage.new obj Ts a). split; [done|].
  split; [apply new_aligned|].
  assert (forall L, (forall T, T ∈ L -> T ∈ Ts) ->
            total L (HeterogeneousStorage.new obj Ts a) = Returns 0) as Hzero.
  { induction L as [|T L IH]; intros Hsub; [done|].
    cbn [foldr]. rewrite IH by (intros U HU; apply Hsub; by right).
    destruct (index_of_elem Ts T) as [i Hi]; [apply Hsub; left|].
    destruct (index_of_Some _ _ _ Hi) as [Hl _].
    assert (HeterogeneousStorage.containers (HeterogeneousStorage.new obj Ts a) !! i
            = Some (holding T (Storage.new (a + i)))) as Hc.
    { simpl. by rewrite list_lookup_imap, Hl. }
    unfold HeterogeneousStorage.Get. by rewrite Hi, Hc, get_holding. }
  unfold HeterogeneousStorage.empty, HeterogeneousStorage.size.
  by rewrite Hzero.
Qed.

End heterogeneous_edges.

(** ** The typed view over an aligned storage *)

Section view_edges.
Context {Ty : Type} `{EqDecision Ty} (obj : Ty -> Type) (Ts : list Ty).
Context {ObjT : Ty}.

(** X20. Over an aligned storage the members of the view of a registered
    type return the iterators of the sub-pool of that type, so none of
    these [noexcept] members terminates the program; [begin()] is
    [end()] exactly when the sub-pool is empty. *)
Theorem view_iterators (v : TypedView.TypedView obj ObjT) :
  aligned Ts (TypedView.storage v) -> ObjT ∈ Ts ->
  exists s,
    HeterogeneousStorage.Get obj Ts ObjT (TypedView.storage v) = Returns s /\
    TypedView.begin obj Ts v = Returns (Storage.begin s) /\
    TypedView.end_ obj Ts v = Returns (Storage.end_ s) /\
    TypedView.cbegin obj Ts v = Returns (Storage.cbegin s) /\
    TypedView.cend obj Ts v = Returns (Storage.cend s) /\
    TypedView.rbegin obj Ts v = Returns (Storage.rbegin s) /\
    TypedView.rend obj Ts v = Returns (Storage.rend s) /\
    TypedView.crbegin obj Ts v = Returns (Storage.crbegin s) /\
    TypedView.crend obj Ts v = Returns (Storage.rend s) /\
    (TypedView.begin obj Ts v = TypedView.end_ obj Ts v <-> Storage.empty s = true).
Proof.
  intros Hal HT.
  destruct (Get_aligned obj Ts _ ObjT Hal HT) as (i & s & _ & _ & HG).
  exists s. split; [done|].
  unfold TypedView.begin, TypedView.end_, TypedView.cbegin, TypedView.cend,
    TypedView.rbegin, TypedView.rend, TypedView.crbegin, TypedView.crend,
    HeterogeneousStorage.begin, HeterogeneousStorage.end_,
    HeterogeneousStorage.cbegin, HeterogeneousStorage.cend,
    HeterogeneousStorage.rbegin, HeterogeneousStorage.rend,
    HeterogeneousStorage.crbegin, HeterogeneousStorage.crend.
  rewrite HG. repeat (split; [done|]).
  rewrite (empty_begin_end s).
  simpl. split; intros; congruence.
Qed.

End view_edges.

(** ** Copies of a heterogeneous storage *)

Section heterogeneous_copy.
Context {Ty : Type} `{EqDecision Ty} (obj : Ty -> Type) (Ts : list Ty).

(** X21. The copy of an aligned heterogeneous storage is aligned, and
    its sub-pool of a registered type is the copy of the sub-pool of
    that type: it has as many objects, and the loop over it visits the
    objects of the original sub-pool in the same order. *)
Theorem heterogeneous_copy_sub_pools (a : nat) (A : Ty)
    (hs : HeterogeneousStorage.HeterogeneousStorage obj) :
  aligned Ts hs -> A ∈ Ts ->
  aligned Ts (HeterogeneousStorage.copy obj a hs) /\
  exists sA sA',
    HeterogeneousStorage.Get obj Ts A hs = Returns sA /\
    HeterogeneousStorage.Get obj Ts A (HeterogeneousStorage.copy obj a hs)
      = Returns sA' /\
    Storage.size sA' = Storage.size sA /\
    (forall fuel, distinct_nodes sA -> Storage.size sA <= fuel ->
       Storage.range_for fuel sA' = Storage.range_for fuel sA).
Proof.
  intros Hal HA. pose proof Hal as [Hlen Hat].
  assert (forall i (T : Ty) (s : Storage.Storage (obj T)),
            HeterogeneousStorage.containers hs !! i = Some (holding T s) ->
            HeterogeneousStorage.containers (HeterogeneousStorage.copy obj a hs) !! i
            = Some (holding T (Storage.copy (a + i) s))) as Hcopy.
  { intros i T s Hi. simpl. by rewrite list_lookup_imap, Hi. }
  split.
  - split; [simpl; by rewrite length_imap|].
    intros i T HT. destruct (Hat _ _ HT) as [s Hs].
    exists (Storage.copy (a + i) s). by apply Hcopy.
  - destruct (Get_aligned obj Ts hs A Hal HA) as (i & sA & Hi & Hc & HG).
    exists sA, (Storage.copy (a + i) sA). split; [done|]. split.
    + unfold HeterogeneousStorage.Get.
      by rewrite Hi, (Hcopy _ _ _ Hc), get_holding.
    + split.
      * unfold Storage.size. simpl. by rewrite length_imap.
      * intros fuel Hnd Hfuel.
        by apply copy_range_for.
Qed.

End heterogeneous_copy.

(** ** Instances of the properties above *)

Lemma example_storage_well_formed : well_formed example_storage.
Proof. apply emplace_well_formed, emplace_well_formed, new_well_formed. Qed.

Lemma example_storage_distinct : distinct_nodes example_storage.
Proof. apply example_storage_well_formed. Qed.

Lemma example_storage_linked : linked 0 example_storage.
Proof. unfold linked. simpl. left. Qed.

Lemma well_formed_preserved_witness :
  well_formed example_storage /\
  forall val, well_formed (Storage.emplace val example_storage).1.
Proof.
  split; [exact example_storage_well_formed|].
  exact (proj1 (well_formed_preserved example_storage example_storage_well_formed)).
Defined.

Lemma emplace_pointer_witness :
  well_formed example_storage /\
  Storage.operator_bool (Storage.emplace 3%Z example_storage).2 = true /\
  Storage.GetStorage (Storage.emplace 3%Z example_storage).2
    = Some (Storage.this example_storage) /\
  Storage.operator_star (Storage.emplace 3%Z example_storage).2
    (Storage.emplace 3%Z example_storage).1 = Returns 3%Z.
Proof.
  split; [exact example_storage_well_formed|].
  pose proof (emplace_pointer 3%Z example_storage example_storage_well_formed)
    as (H1 & H2 & H3 & _).
  exact (conj H1 (conj H2 H3)).
Defined.

Lemma erase_pointer_witness :
  well_formed example_storage /\
  base (Storage.it (node_pointer (T := Z) 0 0)) = at_node 0 /\
  linked 0 example_storage /\
  exists s' p',
    Storage.erase (node_pointer 0 0) example_storage = Returns (s', p') /\
    Storage.operator_bool p' = false.
Proof.
  split; [exact example_storage_well_formed|]. split; [reflexivity|].
  split; [exact example_storage_linked|].
  destruct (erase_pointer (node_pointer 0 0) 0 example_storage
              example_storage_well_formed eq_refl example_storage_linked)
    as (s' & p' & H1 & H2 & _).
  exact (ex_intro _ s' (ex_intro _ p' (conj H1 H2))).
Defined.

Lemma erase_twice_undefined_witness :
  well_formed example_storage /\
  Storage.erase (node_pointer 0 0) example_storage
    = Returns (Storage.mk 0 [(1, 2%Z)] 2, end_pointer 0) /\
  Storage.operator_star (node_pointer 0 0) (Storage.mk 0 [(1, 2%Z)] 2) = Undefined /\
  Storage.erase (node_pointer 0 0) (Storage.mk 0 [(1, 2%Z)] 2) = Undefined.
Proof.
  split; [exact example_storage_well_formed|]. split; [reflexivity|].
  pose proof (erase_twice_undefined (node_pointer 0 0) (end_pointer 0)
                example_storage (Storage.mk 0 [(1, 2%Z)] 2)
                example_storage_well_formed eq_refl) as (H1 & H2 & _).
  exact (conj H1 H2).
Defined.

Lemma reverse_range_for_reverses_witness :
  distinct_nodes example_storage /\ Storage.size example_storage <= 2 /\
  exists vs,
    Storage.range_for 2 example_storage = Some (Returns vs) /\
    Storage.reverse_range_for 2 example_storage = Some (Returns (reverse vs)).
Proof.
  split; [exact example_storage_distinct|]. split; [vm_compute; lia|].
  apply (reverse_range_for_reverses example_storage 2);
    [exact example_storage_distinct|vm_compute; lia].
Defined.

Lemma copy_same_objects_witness :
  distinct_nodes example_storage /\ Storage.size example_storage <= 2 /\
  Storage.size (Storage.copy 5 example_storage) = Storage.size example_storage /\
  Storage.range_for 2 (Storage.copy 5 example_storage)
    = Storage.range_for 2 example_storage.
Proof.
  split; [exact example_storage_distinct|]. split; [vm_compute; lia|].
  assert (Storage.size example_storage <= 2) as Hle by (vm_compute; lia).
  pose proof (copy_same_objects 5 example_storage 2 example_storage_distinct Hle)
    as (H1 & H2 & _).
  exact (conj H1 H2).
Defined.

Lemma held_pointers_stable_witness :
  valid [Emplace 1%Z; Emplace 2%Z; Erase 0; Emplace 3%Z] = true /\
  exists c, run [Emplace 1%Z; Emplace 2%Z; Erase 0; Emplace 3%Z] (start 0) = Returns c /\
    forall k v, emplaced [Emplace 1%Z; Emplace 2%Z; Erase 0; Emplace 3%Z] !! k = Some v ->
      exists p, held c !! k = Some p /\
        (k ∉ erased [Emplace 1%Z; Emplace 2%Z; Erase 0; Emplace 3%Z] ->
           Storage.operator_bool p = true /\
           Storage.GetStorage p = Some 0 /\
           Storage.operator_star p (pool c) = Returns v) /\
        (k ∈ erased [Emplace 1%Z; Emplace 2%Z; Erase 0; Emplace 3%Z] ->
           Storage.operator_bool p = false /\
           Storage.operator_eq p
             (Storage.mkptr (Storage.end_ (pool c)) (Some 0)) = true).
Proof.
  split; [reflexivity|].
  exact (held_pointers_stable 0 [Emplace 1%Z; Emplace 2%Z; Erase 0; Emplace 3%Z]
           eq_refl).
Defined.

Lemma cast_returns_iff_witness :
  ex_int ∈ example_pack /\
  (forall p,
     (GenericObjectPointer.cast example_obj example_pack ex_int
        (GenericObjectPointer.mk (holding ex_string (node_pointer 1 0))) = Returns p) <->
     (GenericObjectPointer.ptr
        (GenericObjectPointer.mk (obj := example_obj)
           (holding ex_string (node_pointer 1 0))) = holding ex_int p)).
Proof.
  split; [exact example_int_registered|].
  exact (proj1 (cast_returns_iff example_obj example_pack ex_int
                  (GenericObjectPointer.mk (holding ex_string (node_pointer 1 0)))
                  example_int_registered)).
Defined.

Lemma example_string_unregistered : ex_string ∉ example_int_only.
Proof. unfold example_int_only. by intros [=]%list_elem_of_singleton. Qed.

Lemma unregistered_type_rejected_witness :
  (ex_string ∉ example_int_only) /\
  HeterogeneousStorage.Get example_obj example_int_only ex_string
    (HeterogeneousStorage.new example_obj example_int_only 0) = IllFormed.
Proof.
  split; [exact example_string_unregistered|].
  exact (proj1 (unregistered_type_rejected example_obj example_int_only ex_string
                  (HeterogeneousStorage.new example_obj example_int_only 0)
                  example_string_unregistered)).
Defined.

Lemma typed_operations_delegate_witness :
  aligned example_pack (HeterogeneousStorage.new example_obj example_pack 0) /\
  ex_string ∈ example_pack /\
  exists sA,
    HeterogeneousStorage.Get example_obj example_pack ex_string
      (HeterogeneousStorage.new example_obj example_pack 0) = Returns sA /\
    forall val, exists hs',
      HeterogeneousStorage.emplace example_obj example_pack ex_string val
        (HeterogeneousStorage.new example_obj example_pack 0)
        = Returns (hs', (Storage.emplace val sA).2) /\
      HeterogeneousStorage.Get example_obj example_pack ex_string hs'
        = Returns (Storage.emplace val sA).1 /\
      aligned example_pack hs'.
Proof.
  split; [apply new_aligned|]. split; [exact example_string_registered|].
  destruct (typed_operations_delegate example_obj example_pack ex_string
              (HeterogeneousStorage.new example_obj example_pack 0)
              (new_aligned example_obj example_pack 0) example_string_registered)
    as (sA & H1 & H2 & _).
  exact (ex_intro _ sA (conj H1 H2)).
Defined.

Lemma heterogeneous_size_counts_witness :
  aligned example_pack (HeterogeneousStorage.new example_obj example_pack 0) /\
  NoDup example_pack /\ ex_int ∈ example_pack /\
  exists n,
    HeterogeneousStorage.size example_obj example_pack
      (HeterogeneousStorage.new example_obj example_pack 0) = Returns n /\
    forall val hs' p,
      HeterogeneousStorage.emplace example_obj example_pack ex_int val
        (HeterogeneousStorage.new example_obj example_pack 0) = Returns (hs', p) ->
      HeterogeneousStorage.size example_obj example_pack hs' = Returns (S n) /\
      HeterogeneousStorage.empty example_obj example_pack hs' = Returns false.
Proof.
  split; [apply new_aligned|]. split; [exact example_pack_NoDup|].
  split; [exact example_int_registered|].
  destruct (heterogeneous_size_counts example_obj example_pack ex_int
              (HeterogeneousStorage.new example_obj example_pack 0)
              (new_aligned example_obj example_pack 0) example_pack_NoDup
              example_int_registered)
    as (n & H1 & H2 & _).
  exact (ex_intro _ n (conj H1 H2)).
Defined.

Lemma view_iterators_witness :
  aligned example_pack
    (TypedView.storage
       (TypedView.mk ex_int (HeterogeneousStorage.new example_obj example_pack 0))) /\
  ex_int ∈ example_pack /\
  exists s,
    HeterogeneousStorage.Get example_obj example_pack ex_int
      (HeterogeneousStorage.new example_obj example_pack 0) = Returns s /\
    TypedView.begin example_obj example_pack
      (TypedView.mk ex_int (HeterogeneousStorage.new example_obj example_pack 0))
    = Returns (Storage.begin s).
Proof.
  split; [apply new_aligned|]. split; [exact example_int_registered|].
  destruct (view_iterators example_obj example_pack
              (TypedView.mk ex_int (HeterogeneousStorage.new example_obj example_pack 0))
              (new_aligned example_obj example_pack 0) example_int_registered)
    as (s0 & H1 & H2 & _).
  exact (ex_intro _ s0 (conj H1 H2)).
Defined.

Lemma heterogeneous_copy_sub_pools_witness :
  aligned example_pack (HeterogeneousStorage.new example_obj example_pack 0) /\
  ex_int ∈ example_pack /\
  aligned example_pack
    (HeterogeneousStorage.copy example_obj 10
       (HeterogeneousStorage.new example_obj example_pack 0)).
Proof.
  split; [apply new_aligned|]. split; [exact example_int_registered|].
  exact (proj1 (heterogeneous_copy_sub_pools example_obj example_pack 10 ex_int
                  (HeterogeneousStorage.new example_obj example_pack 0)
                  (new_aligned example_obj example_pack 0) example_int_registered)).
Defined.

Lemma heterogeneous_new_empty_witness :
  example_pack <> [] /\ NoDup example_pack /\
  exists hs,
    HeterogeneousStorage.default_constructor example_obj example_pack 0 = Returns hs /\
    aligned example_pack hs /\
    HeterogeneousStorage.size example_obj example_pack hs = Returns 0 /\
    HeterogeneousStorage.empty example_obj example_pack hs = Returns true.
Proof.
  assert (example_pack <> []) as Hne by discriminate.
  split; [exact Hne|]. split; [exact example_pack_NoDup|].
  exact (proj2 (heterogeneous_new_empty example_obj example_pack 0)
           Hne example_pack_NoDup).
Defined.
